(** * onos-mlb: the MLB control loop and the watcher registry

    A shallow embedding of [pkg/controller/handler.go] and
    [pkg/store/watcher/watcher.go], followed by the properties of the
    specification settled against it.

    Conventions of the embedding:
    - Go's [int] is a 64-bit two's complement integer, [int32] a 32-bit one;
      both are carried by [Z] with the wrap-around written out ([GoInt]).
    - [float64] is IEEE 754 binary64, carried by [spec_float] with the
      operations of the Standard Library's [SpecFloat] ([Float64]).
    - A Go [map] is a [gmap]; the order in which [range] visits it is picked
      by the runtime, so every function that ranges over a map does so
      through a [RangeOrder] the development is parametric in.
    - A Go function returning [(v, err)] returns a pair whose second
      component is [option error] ([None] is [nil]); a run-time panic (a
      failed type assertion) is the [Panic] outcome of the [go] type.
    - The handler's methods run in the monad [M]: they read and write the
      handler's stores and append to a trace of effects. *)

From Stdlib Require Import ZArith Lia.
From Stdlib Require Import Floats.SpecFloat.
From stdpp Require Import base option list gmap strings.

Open Scope Z_scope.

(** ** Machine integers *)

Module GoInt.

Definition wrap (bits : Z) (z : Z) : Z :=
  (z + 2 ^ (bits - 1)) mod 2 ^ bits - 2 ^ (bits - 1).

Definition int (z : Z) : Z := wrap 64 z.
Definition int32 (z : Z) : Z := wrap 32 z.

Definition add (a b : Z) : Z := int (a + b).
Definition sub (a b : Z) : Z := int (a - b).

Definition in_int (z : Z) : Prop := - 2 ^ 63 <= z < 2 ^ 63.
Definition in_int32 (z : Z) : Prop := - 2 ^ 31 <= z < 2 ^ 31.

End GoInt.

(** ** float64 *)

Module Float64.

Definition prec : Z := 53.
Definition emax : Z := 1024.

Definition float64 : Type := spec_float.

(** [float64(z)] for an integer [z]: rounded to nearest even. *)
Definition of_int (z : Z) : float64 := binary_normalize prec emax z 0 false.

Definition sub (x y : float64) : float64 := SFsub prec emax x y.
Definition mul (x y : float64) : float64 := SFmul prec emax x y.
Definition div (x y : float64) : float64 := SFdiv prec emax x y.


(** The integer part of a finite float (the fraction is discarded). *)
Definition trunc (x : float64) : option Z :=
  match x with
  | S754_zero _ => Some 0
  | S754_finite s m e =>
      let a := match e with
               | Zneg p => Z.shiftr (Zpos m) (Zpos p)
               | _ => Z.shiftl (Zpos m) e
               end in
      Some (if s then - a else a)
  | _ => None
  end.

(** [int(x)]: truncation towards zero.  When the integer part does not fit
    [int], or [x] is a NaN or an infinity, the conversion succeeds with a
    value the language leaves to the implementation: [indefinite x]. *)
Definition to_int (indefinite : float64 -> Z) (x : float64) : Z :=
  match trunc x with
  | Some z => if decide (- 2 ^ 63 <= z < 2 ^ 63) then z else indefinite x
  | None => indefinite x
  end.

End Float64.

(** ** Iteration order of [range] over a map

    Go leaves the order open; a [RangeOrder] fixes one for every map, any
    permutation of its entries.  What is proved for every [RangeOrder] holds
    whichever order the runtime picks. *)

Class RangeOrder := {
  range : forall `{Countable K} {V : Type}, gmap K V -> list (K * V);
  range_perm : forall `{Countable K} {V : Type} (m : gmap K V),
      range m ≡ₚ map_to_list m
}.

(** ** Errors, panics *)

Inductive error : Type :=
  | NotFound (msg : string)
  | OtherError (msg : string).

Inductive go (A : Type) : Type :=
  | Return (a : A)
  | Panic (msg : string).
Arguments Return {A} a.
Arguments Panic {A} msg.

(** ** package storage *)

Module storage.

Record IDs : Type := mkIDs {
  PlmnID : string;
  CellID : string;
  NodeID : string
}.

#[global] Instance IDs_eq_dec : EqDecision IDs.
Proof. solve_decision. Defined.

#[global] Instance IDs_countable : Countable IDs.
Proof.
  refine (inj_countable'
            (fun i => (PlmnID i, CellID i, NodeID i))
            (fun t => mkIDs t.1.1 t.1.2 t.2) _).
  intros []; reflexivity.
Defined.

(** [Entry.Value] is an [interface{}]: the payload carries its dynamic
    type.  [Neighbors] and [OcnMap] are the structs with the single field
    [Value]; a Go map is a reference, so the [gmap] under [VOcnMap] is the
    object the store holds, not a copy. *)
Inductive Value : Type :=
  | VInt (n : Z)
  | VIDsList (l : list IDs)
  | VNeighbors (l : list IDs)
  | VOcnMap (m : gmap IDs Z)
  | VOther.

Record Entry : Type := mkEntry { Key : IDs; Val : Value }.

(** Modelled from the spec: the key/value [Store] behind the interface
    [Get]/[Put]/[ListElements]/[ListKeys], whose implementation is not part
    of the sources: an in-memory map from cell identities to payloads. *)
Abbreviation Store := (gmap IDs Value).

(** Modelled from the spec: [Store.Get], the stored entry, or the
    [NotFound] error for a missing key. *)
Definition Get (s : Store) (key : IDs) : Entry + error :=
  match s !! key with
  | Some v => inl (mkEntry key v)
  | None => inr (NotFound "the entry does not exist")
  end.

(** Modelled from the spec: [Store.Put] binds the key to the value. *)
Definition Put (s : Store) (key : IDs) (v : Value) : Store * option error :=
  (<[key := v]> s, None).

(** Modelled from the spec: [Store.ListElements] produces every entry once
    on the channel, in an order the store picks, and closes it. *)
Definition ListElements {order : RangeOrder} (s : Store) : list Entry + error :=
  inl (map (fun kv => mkEntry kv.1 kv.2) (range s)).

(** Modelled from the spec: [Store.ListKeys] produces every key once. *)
Definition ListKeys {order : RangeOrder} (s : Store) : list IDs + error :=
  inl (map fst (range s)).

End storage.
Export storage.

(** ** package meastype (rrm-son-lib): the Q-offset levels *)

(** The levels are an integer enumeration of which the controller uses the
    lowest, the 0 dB and the highest one; their numbers are not part of the
    sources, so the development is parametric in them. *)
Class QOffsetRange := {
  QOffsetMinus24dB : Z;
  QOffset0dB : Z;
  QOffset24dB : Z
}.

(** ** package watcher *)

Module watcher.

(** [uuid.UUID] is a 16-byte array, carried by the number it spells. *)
Definition UUID : Type := N.

(** The send side of a channel; a channel is known by its identity. *)
Definition Chan : Type := N.

Record Watcher : Type := mkWatcher {
  id : UUID;
  ch : Chan
}.

Abbreviation Watchers := (gmap UUID Watcher).

Definition NewWatchers : Watchers := ∅.

Section Registry.
Context {order : RangeOrder}.
Context {Event : Type}.

(** [Send]: the channel sends [watcher.ch <- event] the spawned goroutine
    performs, in the order it performs them. *)
Definition Send (ws : Watchers) (event : Event) : list (Chan * Event) :=
  map (fun kw => (ch kw.2, event)) (range ws).

Definition AddWatcher (ws : Watchers) (id : UUID) (ch : Chan)
  : Watchers * option error :=
  let watcher := {| id := id; ch := ch |} in
  (<[id := watcher]> ws, None).

Definition RemoveWatcher (ws : Watchers) (id0 : UUID)
  : Watchers * option error :=
  let watchers :=
    foldl (fun (watchers : Watchers) kw =>
             let watcher := kw.2 in
             if decide (id watcher ≠ id0)
             then <[id0 := watcher]> watchers
             else watchers)
          ∅ (range ws) in
  (watchers, None).

End Registry.

(** The registered watchers are the values of the map: the watchers [Send]
    delivers to. *)
Definition registered (ws : Watchers) (w : Watcher) : Prop :=
  exists k, ws !! k = Some w.

End watcher.

(** ** package controller *)

Module controller.

Definition OCNDeltaFactor : Z := 3.

(** The handler and the contents of the stores it refers to. *)
Record handler : Type := mkHandler {
  numUEsMeasStore : Store;
  neighborMeasStore : Store;
  statisticsStore : Store;
  ocnStore : Store;
  interval : Z;
  overloadThreshold : Z;
  targetThreshold : Z
}.

Definition with_ocnStore (h : handler) (o : Store) : handler :=
  {| numUEsMeasStore := numUEsMeasStore h;
     neighborMeasStore := neighborMeasStore h;
     statisticsStore := statisticsStore h;
     ocnStore := o;
     interval := interval h;
     overloadThreshold := overloadThreshold h;
     targetThreshold := targetThreshold h |}.

(** What a run does to the outside: the control messages handed to the
    southbound sender and the lines logged.  [GetCapacityCall] is a ghost
    event with no counterpart in the source: it records that [getCapacity]
    was entered and with which arguments. *)
Inductive effect : Type :=
  | SendControlMessage (target : IDs) (nodeID : string) (ocn : Z)
  | LogError (err : error)
  | LogWarnf (plmnID cid : string)
  | GetCapacityCall (denominationFactor : Float64.float64)
                    (totalNumUEs numUEs : Z).

Record state : Type := mkState {
  hdl : handler;
  trace : list effect
}.

(** *** The monad of the handler's methods *)

Definition M (A : Type) : Type := state -> go (A * state).

Definition ret {A} (a : A) : M A := fun s => Return (a, s).

Definition bind {A B} (m : M A) (k : A -> M B) : M B :=
  fun s => match m s with
           | Return (a, s') => k a s'
           | Panic msg => Panic msg
           end.

Declare Scope go_scope.
Delimit Scope go_scope with go.
Notation "x <- m ;; k" := (bind m (fun x => k))
  (at level 20, m at level 99, k at level 200, only parsing) : go_scope.
Notation "' pat <- m ;; k" := (bind m (fun x => match x with pat => k end))
  (at level 20, pat pattern, m at level 99, k at level 200, only parsing)
  : go_scope.
Notation "m ;; k" := (bind m (fun _ => k))
  (at level 100, k at level 200, only parsing, right associativity)
  : go_scope.
Open Scope go_scope.

Definition panic {A} (msg : string) : M A := fun _ => Panic msg.

Definition this : M handler := fun s => Return (hdl s, s).

Definition emit (e : effect) : M unit :=
  fun s => Return (tt, {| hdl := hdl s; trace := trace s ++ [e] |}).

Definition set_ocnStore (o : Store) : M unit :=
  fun s => Return (tt, {| hdl := with_ocnStore (hdl s) o; trace := trace s |}).

(** [for _, x := range l { body }], where the body may return from the
    enclosing function: [Some r] is [return r], [None] falls through to the
    next iteration. *)
Fixpoint forRange {A R} (l : list A) (body : A -> M (option R)) : M (option R) :=
  match l with
  | [] => ret None
  | x :: l' =>
      r <- body x ;;
      match r with
      | Some v => ret (Some v)
      | None => forRange l' body
      end
  end.

(** Runs that only append to the trace.
    A method [appends] when it leaves the handler and its stores as they
    were and its outcome does not depend on the trace it started with. *)

Definition appends {A} (m : M A) : Prop :=
  forall s r s', m s = Return (r, s') ->
    exists t, s' = {| hdl := hdl s; trace := trace s ++ t |} /\
      forall tr, m {| hdl := hdl s; trace := tr |} =
                 Return (r, {| hdl := hdl s; trace := tr ++ t |}).

(** *** Type assertions [v.(T)]: a panic when the dynamic type differs *)

Definition assert_int (v : Value) : M Z :=
  match v with
  | VInt n => ret n
  | _ => panic "interface conversion: interface {} is not int"
  end.

Definition assert_IDsList (v : Value) : M (list IDs) :=
  match v with
  | VIDsList l => ret l
  | _ => panic "interface conversion: interface {} is not []storage.IDs"
  end.

Definition assert_Neighbors (v : Value) : M (list IDs) :=
  match v with
  | VNeighbors l => ret l
  | _ => panic "interface conversion: interface {} is not storage.Neighbors"
  end.

Definition assert_OcnMap (v : Value) : M (gmap IDs Z) :=
  match v with
  | VOcnMap m => ret m
  | _ => panic "interface conversion: interface {} is not storage.OcnMap"
  end.

(** *** Pure helpers *)

Definition containsIDs (ids : IDs) (idsList : list IDs) : bool :=
  existsb (fun e => bool_decide (e = ids)) idsList.

Fixpoint findIDWithCGI (plmnid cid : string) (cells : list IDs)
  : IDs * option error :=
  match cells with
  | [] => (mkIDs "" "" "", Some (NotFound "ID not found with plmnid and cgi"))
  | cell :: cells' =>
      if decide (PlmnID cell = plmnid ∧ CellID cell = cid)
      then (cell, None)
      else findIDWithCGI plmnid cid cells'
  end.

(** The float computed by [getCapacity] before the conversion to [int]. *)
Definition capacity (denominationFactor : Float64.float64)
           (totalNumUEs numUEs : Z) : Float64.float64 :=
  Float64.mul
    (Float64.sub (Float64.of_int 1)
       (Float64.div (Float64.of_int numUEs)
          (Float64.mul denominationFactor (Float64.of_int totalNumUEs))))
    (Float64.of_int 100).

(** The OCN map stored for a cell, empty when there is none. *)
Definition storedOcnMap (o : Store) (cell : IDs) : gmap IDs Z :=
  match o !! cell with
  | Some (VOcnMap m) => m
  | _ => ∅
  end.

(** Every value of the UE-count store is an [int]. *)
Definition countsTyped (h : handler) : Prop :=
  forall cell v, numUEsMeasStore h !! cell = Some v -> exists n, v = VInt n.

(** Every value of the neighbor store is a [storage.Neighbors]. *)
Definition neighborsTyped (h : handler) : Prop :=
  forall cell v, neighborMeasStore h !! cell = Some v ->
    exists neighborList, v = VNeighbors neighborList.

(** The UE count a stored value carries ([0] when it is not an [int]). *)
Definition storedCount (v : Value) : Z :=
  match v with
  | VInt n => n
  | _ => 0
  end.

(** The sum of the UE counts of a store. *)
Definition sumCounts (m : Store) : Z :=
  foldr (fun kv acc => storedCount kv.2 + acc) 0 (map_to_list m).

(** The sum of the UE counts of the entries a listing has produced. *)
Definition sumEntries (ch : list Entry) : Z :=
  foldr (fun e acc => storedCount (Val e) + acc) 0 ch.

(** Every value of the OCN store is a [storage.OcnMap]. *)
Definition ocnTyped (h : handler) : Prop :=
  forall cell v, ocnStore h !! cell = Some v -> exists m, v = VOcnMap m.

(** The capacity of [numUEs] out of [totalNumUEs] is the exact percentage
    [100 * (totalNumUEs - numUEs) / totalNumUEs] or one below it, it is 100
    for no UE and 0 for all of them. *)
Definition capacityWithinOne (totalNumUEs numUEs : Z) : bool :=
  match Float64.trunc (capacity (Float64.of_int 1) totalNumUEs numUEs) with
  | Some c =>
      let exact := 100 * (totalNumUEs - numUEs) / totalNumUEs in
      (exact - 1 <=? c) && (c <=? exact) && (0 <=? c) && (c <=? 100)
      && (if numUEs =? 0 then c =? 100 else true)
      && (if numUEs =? totalNumUEs then c =? 0 else true)
  | None => false
  end.

(** [capacityWithinOne] for every count up to the total, and for every
    total from 1 to [bound]. *)
Definition capacityTable (bound : nat) : bool :=
  forallb (fun t =>
             forallb (fun n => capacityWithinOne (Z.of_nat t) (Z.of_nat n))
                     (seq 0 (S t)))
          (seq 1 bound).

Section Handler.
Context {order : RangeOrder} {levels : QOffsetRange}.

(** What [int(x)] yields on the target when [x] is not representable. *)
Variable indefinite : Float64.float64 -> Z.

(** The external monitor: refreshes the measurement stores. *)
Variable Monitor : handler -> handler * option error.

Definition RcPreRanParamDefaultOCN : Z := QOffset0dB.

Definition getCapacity (denominationFactor : Float64.float64)
           (totalNumUEs numUEs : Z) : Z :=
  Float64.to_int indefinite (capacity denominationFactor totalNumUEs numUEs).

(** A call of [getCapacity], leaving its ghost event. *)
Definition call_getCapacity (denominationFactor : Float64.float64)
           (totalNumUEs numUEs : Z) : M Z :=
  emit (GetCapacityCall denominationFactor totalNumUEs numUEs) ;;
  ret (getCapacity denominationFactor totalNumUEs numUEs).

Definition numUE (plmnID cid : string) (cells : list IDs)
  : M (Z * option error) :=
  match findIDWithCGI plmnID cid cells with
  | (_, Some err) => ret (0, Some err)
  | (storageID, None) =>
      h <- this ;;
      match Get (numUEsMeasStore h) storageID with
      | inr err => ret (0, Some err)
      | inl entry =>
          n <- assert_int (Val entry) ;;
          ret (n, None)
      end
  end.

(** The clamped downward step of the offload rule (lines 210-214). *)
Definition stepDown (ocn : Z) : Z :=
  if GoInt.sub ocn OCNDeltaFactor <? QOffsetMinus24dB
  then QOffsetMinus24dB
  else GoInt.sub ocn OCNDeltaFactor.

(** The upward step of the overload-relief rule (lines 235-239). *)
Definition stepUp (ocn : Z) : Z :=
  if GoInt.add ocn OCNDeltaFactor >? QOffsetMinus24dB
  then QOffset24dB
  else GoInt.add ocn OCNDeltaFactor.

(** One iteration of the loop of the offload rule (lines 205-216). *)
Definition offloadNeighbor (ids nCellID : IDs) : M (option error) :=
  h <- this ;;
  match Get (ocnStore h) ids with
  | inr err => ret (Some err)
  | inl entry =>
      m <- assert_OcnMap (Val entry) ;;
      let ocn := default 0 (m !! nCellID) in
      let ocn := stepDown ocn in
      emit (SendControlMessage nCellID (NodeID ids) (GoInt.int32 ocn)) ;;
      ret None
  end.

(** One iteration of the loop of the overload-relief rule, from the UE
    count of the neighbor on (lines 228-241). *)
Definition reliefDecision (ids : IDs) (totalNumUEs : Z) (nCellID : IDs)
           (numUEsNCell : Z) : M (option error) :=
  h <- this ;;
  capNCell <- call_getCapacity (Float64.of_int 1) totalNumUEs numUEsNCell ;;
  if GoInt.sub 1 capNCell <? targetThreshold h then
    match Get (ocnStore h) ids with
    | inr err => ret (Some err)
    | inl entry =>
        m <- assert_OcnMap (Val entry) ;;
        let ocn := default 0 (m !! nCellID) in
        let ocn := stepUp ocn in
        emit (SendControlMessage nCellID (NodeID ids) (GoInt.int32 ocn)) ;;
        ret None
    end
  else ret None.

(** One iteration of the loop of the overload-relief rule (lines 224-241). *)
Definition reliefNeighbor (ids : IDs) (cells : list IDs) (totalNumUEs : Z)
           (nCellID : IDs) : M (option error) :=
  '(numUEsNCell, err) <- numUE (PlmnID nCellID) (CellID nCellID) cells ;;
  (match err with
   | Some _ => emit (LogWarnf (PlmnID nCellID) (CellID nCellID))
   | None => ret tt
   end) ;;
  reliefDecision ids totalNumUEs nCellID numUEsNCell.

(** The two rules, from the capacity of the serving cell on
    (lines 202-245). *)
Definition applyRules (ids : IDs) (neighborList cells : list IDs)
           (totalNumUEs capSCell : Z) : M (option error) :=
  h <- this ;;
  r <- (if GoInt.sub 1 capSCell <? targetThreshold h
        then forRange neighborList (offloadNeighbor ids)
        else ret None) ;;
  match r with
  | Some err => ret (Some err)
  | None =>
      if GoInt.sub 1 capSCell >? overloadThreshold h
      then forRange neighborList (reliefNeighbor ids cells totalNumUEs)
      else ret None
  end.

Definition controlLogicEachCell (ids : IDs) (cells : list IDs)
           (totalNumUEs : Z) : M (option error) :=
  h <- this ;;
  match Get (neighborMeasStore h) ids with
  | inr err => ret (Some err)
  | inl neighbors =>
      neighborList <- assert_IDsList (Val neighbors) ;;
      '(numUEsSCell, err) <- numUE (PlmnID ids) (CellID ids) cells ;;
      match err with
      | Some err => ret (Some err)
      | None =>
          capSCell <- call_getCapacity (Float64.of_int 1) totalNumUEs numUEsSCell ;;
          applyRules ids neighborList cells totalNumUEs capSCell
      end
  end.

(** The map of a newly seen cell (lines 122-125). *)
Definition freshOcnMap (neighborList : list IDs) : gmap IDs Z :=
  foldl (fun nOcnMap nIDs => <[nIDs := RcPreRanParamDefaultOCN]> nOcnMap)
        ∅ neighborList.

(** Deleting the removed neighbors (lines 135-139). *)
Definition deleteRemoved (neighborList : list IDs) (nOcnMap : gmap IDs Z)
  : gmap IDs Z :=
  foldl (fun m kv =>
           if negb (containsIDs kv.1 neighborList) then delete kv.1 m else m)
        nOcnMap (range nOcnMap).

(** Adding the new neighbors (lines 141-145). *)
Definition addNew (neighborList : list IDs) (nOcnMap : gmap IDs Z)
  : gmap IDs Z :=
  foldl (fun m n =>
           match m !! n with
           | Some _ => m
           | None => <[n := RcPreRanParamDefaultOCN]> m
           end)
        nOcnMap neighborList.

(** The body of the loop of [updateOcnStore] (lines 117-146).  In the
    second branch [nOcnMap] is the map held by the stored entry, so the
    deletions and insertions are seen by the store. *)
Definition reconcile (e : Entry) : M (option error) :=
  let ids := Key e in
  neighborList <- assert_Neighbors (Val e) ;;
  h <- this ;;
  match Get (ocnStore h) ids with
  | inr _ =>
      let nOcnMap := freshOcnMap neighborList in
      let '(o, err) := Put (ocnStore h) ids (VOcnMap nOcnMap) in
      set_ocnStore o ;;
      match err with
      | Some err => ret (Some err)
      | None => ret None
      end
  | inl e =>
      nOcnMap <- assert_OcnMap (Val e) ;;
      let nOcnMap := addNew neighborList (deleteRemoved neighborList nOcnMap) in
      set_ocnStore (<[ids := VOcnMap nOcnMap]> (ocnStore h)) ;;
      ret None
  end.

Definition updateOcnStore : M (option error) :=
  h <- this ;;
  match ListElements (neighborMeasStore h) with
  | inr err => ret (Some err)
  | inl ch => forRange ch reconcile
  end.

(** The loop of [getTotalNumUEs] (lines 168-170). *)
Fixpoint sumNumUEs (ch : list Entry) (result : Z) : M Z :=
  match ch with
  | [] => ret result
  | e :: ch' =>
      n <- assert_int (Val e) ;;
      sumNumUEs ch' (GoInt.add result n)
  end.

Definition getTotalNumUEs : M (Z * option error) :=
  h <- this ;;
  match ListElements (numUEsMeasStore h) with
  | inr err => ret (0, Some err)
  | inl ch =>
      result <- sumNumUEs ch 0 ;;
      ret (result, None)
  end.

Definition getCellList : M (list IDs * option error) :=
  h <- this ;;
  match ListKeys (numUEsMeasStore h) with
  | inr err => ret ([], Some err)
  | inl ch => ret (ch, None)
  end.

Definition runMonitor : M (option error) :=
  fun s =>
    let '(h', err) := Monitor (hdl s) in
    Return (err, {| hdl := h'; trace := trace s |}).

(** [StartControlLogic] returns nothing; [Some tt] in the loop is its
    [return] after logging. *)
Definition StartControlLogic : M unit :=
  err <- runMonitor ;;
  match err with
  | Some err => emit (LogError err)
  | None =>
      err <- updateOcnStore ;;
      match err with
      | Some err => emit (LogError err)
      | None =>
          '(totalNumUEs, err) <- getTotalNumUEs ;;
          match err with
          | Some err => emit (LogError err)
          | None =>
              '(cells, err) <- getCellList ;;
              match err with
              | Some err => emit (LogError err)
              | None =>
                  forRange cells (fun cell =>
                    err <- controlLogicEachCell cell cells totalNumUEs ;;
                    match err with
                    | Some err => emit (LogError err) ;; ret (Some tt)
                    | None => ret None
                    end) ;;
                  ret tt
              end
          end
      end
  end.

(** The case [select] takes in one turn of the loop of [Run]. *)
Inductive selectCase : Type :=
  | TimerFired
  | CtxDone.

(** [Run] along the cases its [select] takes: [Some r] is [return r];
    [None] is the loop blocked in [select] once the cases are used up. *)
Fixpoint Run (cases : list selectCase) : M (option (option error)) :=
  match cases with
  | [] => ret None
  | TimerFired :: cases' => StartControlLogic ;; Run cases'
  | CtxDone :: _ => ret (Some None)
  end.

(** What reconciling against [neighborList] makes of the map [old]. *)
Definition reconciled (neighborList : list IDs) (old m : gmap IDs Z) : Prop :=
  forall n, m !! n =
    if decide (n ∈ neighborList)
    then Some (default RcPreRanParamDefaultOCN (old !! n))
    else None.

(** [n] ticks in a row. *)
Fixpoint ticks (n : nat) : M unit :=
  match n with
  | O => ret tt
  | S n' => StartControlLogic ;; ticks n'
  end.

End Handler.

End controller.

Import controller.

(** ** Instances the closed statements are evaluated on *)

Module Examples.

(** The order [map_to_list] lists a map in is one the runtime may pick. *)
Definition canonical_order : RangeOrder :=
  {| range := fun K _ _ V (m : gmap K V) => map_to_list m;
     range_perm := fun K _ _ V (m : gmap K V) => reflexivity (map_to_list m) |}.

(** Modelled from the spec: the three levels of [meastype] the handler
    uses, numbered by their dB value: the default offset is the 0 dB level
    and the clamping bounds are the -24 dB and the +24 dB level. *)
Definition dB_levels : QOffsetRange :=
  {| QOffsetMinus24dB := -24; QOffset0dB := 0; QOffset24dB := 24 |}.

(** An out-of-range conversion yields the smallest [int], as on amd64. *)
Definition amd64_indefinite (x : Float64.float64) : Z := - 2 ^ 63.

(** A monitor that finds nothing new. *)
Definition idle_monitor (h : handler) : handler * option error := (h, None).

Definition cellA : IDs := mkIDs "315010" "A" "e2:1/5153".
Definition cellB : IDs := mkIDs "315010" "B" "e2:1/5154".
Definition cellC : IDs := mkIDs "315010" "C" "e2:1/5155".
Definition cellD : IDs := mkIDs "315010" "D" "e2:1/5156".

(** Two cells, [uesA] and [uesB] users, [cellB] the only neighbor of
    [cellA], its offset at the default. *)
Definition twoCells (uesA uesB overload target : Z) : state :=
  {| hdl := {| numUEsMeasStore := {[ cellA := VInt uesA; cellB := VInt uesB ]};
               neighborMeasStore := {[ cellA := VIDsList [cellB] ]};
               statisticsStore := ∅;
               ocnStore := {[ cellA := VOcnMap {[ cellB := 0 ]} ]};
               interval := 1;
               overloadThreshold := overload;
               targetThreshold := target |};
     trace := [] |}.

(** The control messages of a trace. *)
Definition sent (t : list effect) : list (IDs * string * Z) :=
  omap (fun e => match e with
                 | SendControlMessage target nodeID ocn => Some (target, nodeID, ocn)
                 | _ => None
                 end) t.

(** [cellA] with the neighbors [cellB] and [cellC]; the OCN store still has
    the map of an earlier tick, with [cellB] at 6 and the former neighbor
    [cellD] at 9. *)
Definition staleOcn : state :=
  {| hdl := {| numUEsMeasStore := {[ cellA := VInt 10 ]};
               neighborMeasStore := {[ cellA := VNeighbors [cellB; cellC] ]};
               statisticsStore := ∅;
               ocnStore := {[ cellA := VOcnMap {[ cellB := 6; cellD := 9 ]} ]};
               interval := 1;
               overloadThreshold := 60;
               targetThreshold := 40 |};
     trace := [] |}.

(** [cellA] holds all the UEs and is overloaded; its neighbor [cellC] is
    not among the measured cells. *)
Definition strayNeighbor : state :=
  {| hdl := {| numUEsMeasStore := {[ cellA := VInt 200 ]};
               neighborMeasStore := {[ cellA := VIDsList [cellC] ]};
               statisticsStore := ∅;
               ocnStore := {[ cellA := VOcnMap {[ cellC := 0 ]} ]};
               interval := 1;
               overloadThreshold := 0;
               targetThreshold := 1 |};
     trace := [] |}.

(** One measured cell without UEs, and no neighbor list for it. *)
Definition loneCell : state :=
  {| hdl := {| numUEsMeasStore := {[ cellA := VInt 0 ]};
               neighborMeasStore := ∅;
               statisticsStore := ∅;
               ocnStore := ∅;
               interval := 1;
               overloadThreshold := 60;
               targetThreshold := 40 |};
     trace := [] |}.

Definition watcher1 : watcher.Watcher := watcher.mkWatcher 1%N 101%N.
Definition watcher2 : watcher.Watcher := watcher.mkWatcher 2%N 102%N.
Definition watcher3 : watcher.Watcher := watcher.mkWatcher 3%N 103%N.

(** The registry after [AddWatcher] for the ids 1, 2 and 3, with the
    channels 101, 102 and 103. *)
Definition threeWatchers : watcher.Watchers :=
  let ws := watcher.NewWatchers in
  let ws := (watcher.AddWatcher ws 1%N 101%N).1 in
  let ws := (watcher.AddWatcher ws 2%N 102%N).1 in
  (watcher.AddWatcher ws 3%N 103%N).1.

(** [cellA] and [cellB] are neighbors of each other, with the values the
    reconciliation expects; nothing is stored for them in the OCN store. *)
Definition meshOfTwo : state :=
  {| hdl := {| numUEsMeasStore := {[ cellA := VInt 120; cellB := VInt 80 ]};
               neighborMeasStore := {[ cellA := VNeighbors [cellB];
                                       cellB := VNeighbors [cellA] ]};
               statisticsStore := ∅;
               ocnStore := ∅;
               interval := 1;
               overloadThreshold := 60;
               targetThreshold := 40 |};
     trace := [] |}.

(** [cellA] twice, as seen through two nodes: same PLMN and cell id. *)
Definition cellA' : IDs := mkIDs "315010" "A" "e2:1/5160".

(** [cellA] is measured through two nodes; the entry of the other node is
    listed first. *)
Definition twoNodes : state :=
  {| hdl := {| numUEsMeasStore := {[ cellA' := VInt 7; cellA := VInt 100 ]};
               neighborMeasStore := {[ cellA := VIDsList [cellB] ]};
               statisticsStore := ∅;
               ocnStore := {[ cellA := VOcnMap {[ cellB := 0 ]} ]};
               interval := 1;
               overloadThreshold := 60;
               targetThreshold := 40 |};
     trace := [] |}.


End Examples.
Import Examples.

(** Runs that leave the handler as it is and send no control message. *)
Definition silent {A} (m : M A) : Prop :=
  forall s r s', m s = Return (r, s') ->
    hdl s' = hdl s /\ sent (trace s') = sent (trace s).


(** * Properties *)

(** ** Machine integers in range *)

Lemma int_small z : GoInt.in_int z -> GoInt.int z = z.
Proof.
  unfold GoInt.in_int, GoInt.int, GoInt.wrap. intros Hz.
  rewrite Z.mod_small; lia.
Qed.

Lemma int32_small z : GoInt.in_int32 z -> GoInt.int32 z = z.
Proof.
  unfold GoInt.in_int32, GoInt.int32, GoInt.wrap. intros Hz.
  rewrite Z.mod_small; lia.
Qed.

Lemma in_int32_in_int z : GoInt.in_int32 z -> GoInt.in_int z.
Proof. unfold GoInt.in_int32, GoInt.in_int. lia. Qed.

(** ** The per-cell decision *)

Section Rules.
Context {order : RangeOrder} {levels : QOffsetRange}.
Variable indefinite : Float64.float64 -> Z.

Lemma stepDown_max ocn :
  GoInt.in_int32 ocn -> GoInt.in_int32 QOffsetMinus24dB ->
  stepDown ocn = Z.max (ocn - OCNDeltaFactor) QOffsetMinus24dB.
Proof.
  intros Ho Hm. unfold stepDown, GoInt.sub, OCNDeltaFactor.
  rewrite int_small by (unfold GoInt.in_int32, GoInt.in_int in *; lia).
  destruct (Z.ltb_spec (ocn - 3) QOffsetMinus24dB); lia.
Qed.

Lemma stepDown_in_int32 ocn :
  GoInt.in_int32 ocn -> GoInt.in_int32 QOffsetMinus24dB ->
  GoInt.in_int32 (stepDown ocn).
Proof.
  intros Ho Hm. rewrite stepDown_max by assumption.
  unfold GoInt.in_int32, OCNDeltaFactor in *. lia.
Qed.

(** C7: an offload decision on neighbor [N] whose current OCN is [ocn] sends
    [ocn - offsetStep] when that is at least [minOffset] and [minOffset]
    otherwise; the value sent is never below [minOffset]. *)
Theorem C7_offload_sends_clamped_step ids N s m ocn :
  ocnStore (hdl s) !! ids = Some (VOcnMap m) ->
  m !! N = Some ocn ->
  GoInt.in_int32 ocn -> GoInt.in_int32 QOffsetMinus24dB ->
  exists v,
    offloadNeighbor ids N s =
      Return (None, {| hdl := hdl s;
                       trace := trace s ++ [SendControlMessage N (NodeID ids) v] |})
    /\ (QOffsetMinus24dB <= ocn - OCNDeltaFactor -> v = ocn - OCNDeltaFactor)
    /\ (ocn - OCNDeltaFactor < QOffsetMinus24dB -> v = QOffsetMinus24dB)
    /\ QOffsetMinus24dB <= v.
Proof.
  intros Hs Hm Ho Hmin. exists (stepDown ocn). split.
  - unfold offloadNeighbor, bind, this, Get. cbn. rewrite Hs. cbn.
    rewrite Hm. cbn. unfold emit, ret. cbn.
    rewrite int32_small by (apply stepDown_in_int32; assumption).
    reflexivity.
  - rewrite stepDown_max by assumption. lia.
Qed.


Lemma stepUp_above_min ocn :
  GoInt.in_int32 ocn -> QOffsetMinus24dB < ocn + OCNDeltaFactor ->
  stepUp ocn = QOffset24dB.
Proof.
  intros Ho Hlt. unfold stepUp, GoInt.add, OCNDeltaFactor in *.
  rewrite int_small by (unfold GoInt.in_int32, GoInt.in_int in *; lia).
  destruct (Z.gtb_spec (ocn + 3) QOffsetMinus24dB); [reflexivity | lia].
Qed.

Lemma appends_ret {A} (a : A) : appends (ret a).
Proof.
  intros [h tr0] r s' [= <- <-]. exists []. cbn. rewrite app_nil_r.
  split; [reflexivity|]. intros tr. unfold ret. by rewrite app_nil_r.
Qed.

Lemma appends_panic {A} msg : appends (@panic A msg).
Proof. intros s r s' [=]. Qed.

Lemma appends_this : appends this.
Proof.
  intros [h tr0] r s' [= <- <-]. exists []. cbn. rewrite app_nil_r.
  split; [reflexivity|]. intros tr. unfold this. cbn. by rewrite app_nil_r.
Qed.

Lemma appends_emit e : appends (emit e).
Proof.
  intros [h tr0] r s' [= <- <-]. exists [e]. cbn.
  split; [reflexivity|]. intros tr. reflexivity.
Qed.

Lemma appends_bind {A B} (m : M A) (k : A -> M B) :
  appends m -> (forall a, appends (k a)) -> appends (bind m k).
Proof.
  intros Hm Hk s r s'. unfold bind.
  destruct (m s) as [[a s1]|] eqn:E; [|discriminate].
  intros Hr.
  destruct (Hm _ _ _ E) as (t1 & -> & Hm').
  destruct (Hk a _ _ _ Hr) as (t2 & -> & Hk'). cbn in *.
  exists (t1 ++ t2). rewrite app_assoc. split; [reflexivity|].
  intros tr. rewrite Hm', Hk', app_assoc. reflexivity.
Qed.

Lemma appends_forRange {A R} (l : list A) (body : A -> M (option R)) :
  (forall x, appends (body x)) -> appends (forRange l body).
Proof.
  intros Hb. induction l as [|x l IH]; cbn [forRange].
  - apply appends_ret.
  - apply appends_bind; [apply Hb|].
    intros [v|]; [apply appends_ret | apply IH].
Qed.

Lemma appends_assert_int v : appends (assert_int v).
Proof. destruct v; first [apply appends_ret | apply appends_panic]. Qed.

Lemma appends_assert_IDsList v : appends (assert_IDsList v).
Proof. destruct v; first [apply appends_ret | apply appends_panic]. Qed.

Lemma appends_assert_OcnMap v : appends (assert_OcnMap v).
Proof. destruct v; first [apply appends_ret | apply appends_panic]. Qed.

Create HintDb frame discriminated.
#[local] Hint Resolve appends_ret appends_panic appends_this
  appends_emit appends_assert_int appends_assert_IDsList
  appends_assert_OcnMap : frame.

Ltac frame_step :=
  first [ apply appends_bind; [|intro]
        | apply appends_forRange; intro
        | solve [auto with frame]
        | match goal with
          | |- appends (match ?x with _ => _ end) => destruct x
          | |- appends (if ?b then _ else _) => destruct b
          end ].

Lemma appends_numUE plmnID cid cells : appends (numUE plmnID cid cells).
Proof. unfold numUE. repeat frame_step. Qed.

Lemma appends_call_getCapacity df t n :
  appends (call_getCapacity indefinite df t n).
Proof. unfold call_getCapacity. repeat frame_step. Qed.

Lemma appends_offloadNeighbor ids N : appends (offloadNeighbor ids N).
Proof. unfold offloadNeighbor. repeat frame_step. Qed.

Lemma appends_reliefDecision ids t N n :
  appends (reliefDecision indefinite ids t N n).
Proof.
  unfold reliefDecision.
  repeat first [apply appends_call_getCapacity | frame_step].
Qed.

Lemma appends_reliefNeighbor ids cells t N :
  appends (reliefNeighbor indefinite ids cells t N).
Proof.
  unfold reliefNeighbor.
  repeat first [apply appends_numUE | apply appends_reliefDecision | frame_step].
Qed.

Lemma appends_applyRules ids nl cells t cap :
  appends (applyRules indefinite ids nl cells t cap).
Proof.
  unfold applyRules.
  repeat first [apply appends_offloadNeighbor | apply appends_reliefNeighbor | frame_step].
Qed.

Lemma appends_controlLogicEachCell ids cells t :
  appends (controlLogicEachCell indefinite ids cells t).
Proof.
  unfold controlLogicEachCell.
  repeat first [apply appends_numUE | apply appends_call_getCapacity
               | apply appends_applyRules | frame_step].
Qed.

(** C3 (amended): the per-cell decision only sends the stepped value: it
    leaves the handler's stores, the OCN store among them, as they were, so
    a repeated decision with the same inputs starts from the same stored
    value and has the same outcome and effects again. *)
Theorem C3_decision_leaves_stores_unchanged ids cells totalNumUEs s r s' :
  controlLogicEachCell indefinite ids cells totalNumUEs s = Return (r, s') ->
  hdl s' = hdl s /\
  exists t, trace s' = trace s ++ t /\
    controlLogicEachCell indefinite ids cells totalNumUEs s' =
      Return (r, {| hdl := hdl s; trace := trace s' ++ t |}).
Proof.
  intros Hrun.
  destruct (appends_controlLogicEachCell _ _ _ _ _ _ Hrun) as (t & -> & Hany).
  cbn. split; [reflexivity|]. exists t. split; [reflexivity|]. apply Hany.
Qed.

(** *** A neighbor without a measurement *)

Lemma numUE_error plmnID cid cells s n err s1 :
  numUE plmnID cid cells s = Return ((n, Some err), s1) -> n = 0 /\ s1 = s.
Proof.
  unfold numUE.
  destruct (findIDWithCGI plmnID cid cells) as [storageID [e|]].
  - intros [= <- _ <-]. split; reflexivity.
  - unfold bind, this. cbn.
    destruct (Get (numUEsMeasStore (hdl s)) storageID) as [entry|e].
    + destruct (Val entry); cbn; intros [=].
    + intros [= <- _ <-]. split; reflexivity.
Qed.

Lemma reliefDecision_returns ids totalNumUEs N n s m :
  ocnStore (hdl s) !! ids = Some (VOcnMap m) ->
  exists s', reliefDecision indefinite ids totalNumUEs N n s = Return (None, s').
Proof.
  intros Hm. unfold reliefDecision, bind, this, call_getCapacity, emit, ret, Get.
  cbn. rewrite Hm. cbn.
  destruct (_ <? _); eauto.
Qed.

Lemma numUE_returns plmnID cid cells s :
  countsTyped (hdl s) ->
  exists n err, numUE plmnID cid cells s = Return ((n, err), s).
Proof.
  intros Hty. unfold numUE.
  destruct (findIDWithCGI plmnID cid cells) as [storageID [e|]]; [by eauto|].
  unfold bind, this, Get. cbn.
  destruct (numUEsMeasStore (hdl s) !! storageID) as [v|] eqn:E; [|by eauto].
  destruct (Hty _ _ E) as [n ->]. cbn. by eauto.
Qed.

Lemma reliefNeighbor_returns ids cells totalNumUEs N s m :
  countsTyped (hdl s) ->
  ocnStore (hdl s) !! ids = Some (VOcnMap m) ->
  exists s', reliefNeighbor indefinite ids cells totalNumUEs N s =
             Return (None, s').
Proof.
  intros Hty Hm.
  destruct (numUE_returns (PlmnID N) (CellID N) cells s Hty) as (n & err & Hn).
  unfold reliefNeighbor, bind at 1 2. rewrite Hn.
  destruct err as [e|]; unfold bind, emit, ret;
    apply (reliefDecision_returns ids totalNumUEs N n _ m); exact Hm.
Qed.

Lemma relief_loop_returns ids cells totalNumUEs neighborList s m :
  countsTyped (hdl s) ->
  ocnStore (hdl s) !! ids = Some (VOcnMap m) ->
  exists s', forRange neighborList
               (reliefNeighbor indefinite ids cells totalNumUEs) s =
             Return (None, s').
Proof.
  revert s. induction neighborList as [|N l IH]; intros s Hty Hm; cbn [forRange].
  - by eexists.
  - destruct (reliefNeighbor_returns ids cells totalNumUEs N s m Hty Hm)
      as [s1 H1].
    unfold bind. rewrite H1.
    destruct (appends_reliefNeighbor _ _ _ _ _ _ _ H1) as (t & -> & _).
    apply IH; assumption.
Qed.

(** C6: in the overload-relief rule, a neighbor [N] whose UE-count lookup
    returns an error is handled, after a warning is logged, as the decision
    for a neighbor with 0 UEs, and the error is not returned.  With an OCN
    map stored for the serving cell the iteration returns no error at all,
    and neither does the whole loop over the neighbors, measured or not (the
    stored counts being [int]s): the per-cell decision goes on. *)
Theorem C6_missing_neighbor_counts_as_zero ids cells totalNumUEs N s n err s1 :
  numUE (PlmnID N) (CellID N) cells s = Return ((n, Some err), s1) ->
  reliefNeighbor indefinite ids cells totalNumUEs N s =
    (emit (LogWarnf (PlmnID N) (CellID N)) ;;
     reliefDecision indefinite ids totalNumUEs N 0) s
  /\ forall m, ocnStore (hdl s) !! ids = Some (VOcnMap m) ->
       (exists s', reliefNeighbor indefinite ids cells totalNumUEs N s =
                   Return (None, s'))
       /\ (countsTyped (hdl s) ->
           forall neighborList,
             exists s', forRange neighborList
                          (reliefNeighbor indefinite ids cells totalNumUEs) s =
                        Return (None, s')).
Proof.
  intros Hn. destruct (numUE_error _ _ _ _ _ _ _ Hn) as [-> ->].
  assert (Heq : reliefNeighbor indefinite ids cells totalNumUEs N s =
    (emit (LogWarnf (PlmnID N) (CellID N)) ;;
     reliefDecision indefinite ids totalNumUEs N 0) s).
  { unfold reliefNeighbor, bind at 1 2. rewrite Hn. reflexivity. }
  split; [exact Heq|].
  intros m Hm. split.
  - rewrite Heq. unfold bind, emit.
    apply (reliefDecision_returns ids totalNumUEs N 0 _ m). exact Hm.
  - intros Hty neighborList.
    apply (relief_loop_returns ids cells totalNumUEs neighborList s m Hty Hm).
Qed.

(** *** The capacity when no UE is counted *)


Lemma elem_of_range `{Countable K} {V} (m : gmap K V) k v :
  (k, v) ∈ range m <-> m !! k = Some v.
Proof. rewrite (range_perm m). apply elem_of_map_to_list. Qed.

Lemma NoDup_fst_range `{Countable K} {V} (m : gmap K V) :
  NoDup (range m).*1.
Proof. rewrite (range_perm m). apply NoDup_fst_map_to_list. Qed.




End Rules.

(** ** Reconciliation of the OCN store *)

Section Reconciliation.
Context {order : RangeOrder} {levels : QOffsetRange}.

Lemma containsIDs_elem_of ids idsList :
  containsIDs ids idsList = true <-> ids ∈ idsList.
Proof.
  unfold containsIDs. rewrite existsb_exists. split.
  - intros (e & He & Hb). apply bool_decide_eq_true in Hb. subst e.
    by apply list_elem_of_In.
  - intros Hin. exists ids. split; [by apply list_elem_of_In|].
    by apply bool_decide_eq_true.
Qed.

Lemma lookup_insert_all (d : Z) neighborList (m : gmap IDs Z) n :
  foldl (fun nOcnMap nIDs => <[nIDs := d]> nOcnMap) m neighborList !! n =
    if decide (n ∈ neighborList) then Some d else m !! n.
Proof.
  revert m. induction neighborList as [|a l IH]; intros m; cbn [foldl].
  - case_decide as Hin; [by apply elem_of_nil in Hin | reflexivity].
  - rewrite IH. destruct (decide (n = a)) as [->|Hne].
    + rewrite lookup_insert_eq.
      rewrite (decide_True (P := a ∈ a :: l)) by left.
      by case_decide.
    + rewrite lookup_insert_ne by done.
      case_decide as H1; case_decide as H2; try reflexivity.
      * exfalso. apply H2. by right.
      * apply elem_of_cons in H2 as [?|?]; [done | contradiction].
Qed.

Lemma lookup_freshOcnMap neighborList n :
  freshOcnMap neighborList !! n =
    if decide (n ∈ neighborList) then Some RcPreRanParamDefaultOCN else None.
Proof. unfold freshOcnMap. rewrite lookup_insert_all. by rewrite lookup_empty. Qed.

Lemma lookup_delete_loop neighborList (ks : list (IDs * Z)) (m : gmap IDs Z) n :
  foldl (fun m kv =>
           if negb (containsIDs kv.1 neighborList) then delete kv.1 m else m)
        m ks !! n =
    if decide (n ∈ ks.*1 /\ n ∉ neighborList) then None else m !! n.
Proof.
  revert m. induction ks as [|[k v] ks IH]; intros m; cbn [foldl fmap list_fmap fst].
  - case_decide as Hin; [|reflexivity].
    destruct Hin as [Hin _]. by apply elem_of_nil in Hin.
  - rewrite IH. destruct (containsIDs k neighborList) eqn:Hc; cbn [negb].
    + apply containsIDs_elem_of in Hc.
      case_decide as H1; case_decide as H2; try reflexivity.
      * exfalso. apply H2. destruct H1. split; [by right | done].
      * exfalso. destruct H2 as [H2 H3]. apply elem_of_cons in H2 as [->|?];
          [contradiction | apply H1; done].
    + assert (k ∉ neighborList) as Hk.
      { intros Hin. apply containsIDs_elem_of in Hin. congruence. }
      destruct (decide (n = k)) as [->|Hne].
      * rewrite lookup_delete_eq.
        rewrite (decide_True (P := k ∈ k :: ks.*1 /\ _)) by (split; [left | done]).
        by case_decide.
      * rewrite lookup_delete_ne by done.
        case_decide as H1; case_decide as H2; try reflexivity.
        -- exfalso. apply H2. destruct H1. split; [by right | done].
        -- exfalso. destruct H2 as [H2 H3]. apply elem_of_cons in H2 as [?|?];
             [done | apply H1; done].
Qed.

Lemma lookup_deleteRemoved neighborList (m : gmap IDs Z) n :
  deleteRemoved neighborList m !! n =
    if decide (n ∈ neighborList) then m !! n else None.
Proof.
  unfold deleteRemoved. rewrite lookup_delete_loop.
  case_decide as H1; case_decide as H2; try reflexivity.
  - destruct H1; contradiction.
  - destruct (m !! n) as [v|] eqn:E; [|reflexivity].
    exfalso. apply H1. split; [|done].
    apply list_elem_of_fmap. exists (n, v). split; [reflexivity|].
    by apply elem_of_range.
Qed.

Lemma lookup_addNew neighborList (m : gmap IDs Z) n :
  addNew neighborList m !! n =
    match m !! n with
    | Some x => Some x
    | None => if decide (n ∈ neighborList)
              then Some RcPreRanParamDefaultOCN else None
    end.
Proof.
  unfold addNew. revert m.
  induction neighborList as [|a l IH]; intros m; cbn [foldl].
  - destruct (m !! n); [reflexivity|].
    case_decide as Hin; [by apply elem_of_nil in Hin | reflexivity].
  - rewrite IH. destruct (m !! a) as [x|] eqn:Ea.
    + destruct (m !! n) as [y|] eqn:En; [reflexivity|].
      case_decide as H1; case_decide as H2; try reflexivity.
      * exfalso. apply H2. by right.
      * apply elem_of_cons in H2 as [->|?]; [congruence | contradiction].
    + destruct (decide (n = a)) as [->|Hne].
      * rewrite lookup_insert_eq, Ea.
        by rewrite (decide_True (P := a ∈ a :: l)) by left.
      * rewrite lookup_insert_ne by done.
        destruct (m !! n) as [y|]; [reflexivity|].
        case_decide as H1; case_decide as H2; try reflexivity.
        -- exfalso. apply H2. by right.
        -- apply elem_of_cons in H2 as [?|?]; [done | contradiction].
Qed.

Lemma reconciled_fresh neighborList :
  reconciled neighborList ∅ (freshOcnMap neighborList).
Proof.
  intros n. rewrite lookup_freshOcnMap, lookup_empty. reflexivity.
Qed.

Lemma reconciled_update neighborList (old : gmap IDs Z) :
  reconciled neighborList old (addNew neighborList (deleteRemoved neighborList old)).
Proof.
  intros n. rewrite lookup_addNew, lookup_deleteRemoved.
  case_decide; [|reflexivity]. by destruct (old !! n).
Qed.

Lemma reconciled_dom neighborList old (m : gmap IDs Z) :
  reconciled neighborList old m -> dom m = list_to_set neighborList.
Proof.
  intros Hm. apply set_eq. intros n.
  rewrite elem_of_dom, elem_of_list_to_set, Hm.
  case_decide; split; intros Hx; done.
Qed.

Lemma reconcile_spec e s r s' :
  reconcile e s = Return (r, s') ->
  r = None /\
  exists neighborList m,
    Val e = VNeighbors neighborList /\
    s' = {| hdl := with_ocnStore (hdl s)
                     (<[Key e := VOcnMap m]> (ocnStore (hdl s)));
            trace := trace s |} /\
    reconciled neighborList (storedOcnMap (ocnStore (hdl s)) (Key e)) m.
Proof.
  unfold reconcile, bind at 1.
  destruct (Val e) as [| |neighborList| |] eqn:Ev; cbn; try discriminate.
  unfold bind at 1, this, Get, storedOcnMap. cbn.
  destruct (ocnStore (hdl s) !! Key e) as [v|] eqn:Eo; cbn.
  - destruct v as [| | |old|]; cbn; try discriminate.
    intros [= <- <-]. split; [reflexivity|].
    exists neighborList, (addNew neighborList (deleteRemoved neighborList old)).
    repeat split. apply reconciled_update.
  - intros [= <- <-]. split; [reflexivity|].
    exists neighborList, (freshOcnMap neighborList).
    repeat split. apply reconciled_fresh.
Qed.

Lemma forRange_reconcile ch :
  NoDup (Key <$> ch) ->
  forall s r s', forRange ch reconcile s = Return (r, s') ->
    r = None /\
    neighborMeasStore (hdl s') = neighborMeasStore (hdl s) /\
    (forall cell, cell ∉ Key <$> ch ->
       ocnStore (hdl s') !! cell = ocnStore (hdl s) !! cell) /\
    (forall e, e ∈ ch ->
       exists neighborList m,
         Val e = VNeighbors neighborList /\
         ocnStore (hdl s') !! Key e = Some (VOcnMap m) /\
         reconciled neighborList (storedOcnMap (ocnStore (hdl s)) (Key e)) m).
Proof.
  induction ch as [|e ch IH]; intros Hnd s r s'; cbn [forRange].
  - intros [= <- <-]. repeat split; try reflexivity.
    intros e He. by apply elem_of_nil in He.
  - rewrite fmap_cons in Hnd. apply NoDup_cons in Hnd as [Hfresh Hnd].
    unfold bind at 1.
    destruct (reconcile e s) as [[r1 s1]|] eqn:E1; [|discriminate].
    apply reconcile_spec in E1 as (-> & nl & m & Hv & -> & Hm).
    intros Hrest.
    destruct (IH Hnd _ _ _ Hrest) as (-> & Hnb & Hother & Hin). cbn in *.
    split; [reflexivity|]. split; [exact Hnb|]. split.
    + intros cell Hcell.
      apply not_elem_of_cons in Hcell as [Hne Hcell].
      rewrite (Hother cell Hcell). by rewrite lookup_insert_ne.
    + intros e' He'. apply elem_of_cons in He' as [->|He'].
      * exists nl, m. split; [exact Hv|]. split; [|exact Hm].
        rewrite (Hother (Key e) Hfresh). by rewrite lookup_insert_eq.
      * destruct (Hin e' He') as (nl' & m' & Hv' & Hs' & Hm').
        exists nl', m'. split; [exact Hv'|]. split; [exact Hs'|].
        assert (Key e' ≠ Key e) as Hne.
        { intros Heq. apply Hfresh. rewrite <- Heq.
          apply list_elem_of_fmap. by exists e'. }
        unfold storedOcnMap in Hm' |- *.
        by rewrite lookup_insert_ne in Hm' by done.
Qed.

(** C4: when the reconciliation step returns without error, every cell of
    the neighbor store (holding the neighbor list [neighborList]) has an OCN
    map in the OCN store whose keys are exactly the neighbors of
    [neighborList]; a neighbor that had an entry before keeps its value and
    every key that was added maps to the default (0 dB) offset. *)
Theorem C4_reconciliation_closure s s' :
  updateOcnStore s = Return (None, s') ->
  forall cell v, neighborMeasStore (hdl s) !! cell = Some v ->
    exists neighborList m,
      v = VNeighbors neighborList /\
      ocnStore (hdl s') !! cell = Some (VOcnMap m) /\
      dom m = list_to_set neighborList /\
      forall n, n ∈ neighborList ->
        m !! n = Some (default QOffset0dB
                         (storedOcnMap (ocnStore (hdl s)) cell !! n)).
Proof.
  unfold updateOcnStore, bind, this, ListElements. cbn.
  intros Hrun cell v Hcell.
  apply forRange_reconcile in Hrun as (_ & _ & _ & Hin).
  - destruct (Hin (mkEntry cell v)) as (nl & m & Hv & Hs & Hm).
    { apply list_elem_of_fmap. exists (cell, v). split; [reflexivity|].
      by apply elem_of_range. }
    cbn in *. exists nl, m. split; [exact Hv|]. split; [exact Hs|].
    split; [eapply reconciled_dom, Hm|].
    intros n Hn. rewrite (Hm n). by rewrite decide_True.
  - rewrite <- list_fmap_compose.
    apply (NoDup_fst_range (neighborMeasStore (hdl s))).
Qed.

End Reconciliation.

(** ** The watcher registry *)

Section WatcherProps.
Context {order : RangeOrder}.

(** C8: [Send] performs one channel send of the event per registered
    watcher, on that watcher's channel, in an order that is not fixed; a
    channel receives the event only as the channel of a registered
    watcher. *)
Theorem C8_send_once_to_each_watcher {Event : Type}
        (ws : watcher.Watchers) (event : Event) :
  watcher.Send ws event ≡ₚ
    (fun kw => (watcher.ch kw.2, event)) <$> map_to_list ws
  /\ forall c e, (c, e) ∈ watcher.Send ws event <->
       e = event /\ exists w, watcher.registered ws w /\ watcher.ch w = c.
Proof.
  assert (Hperm : watcher.Send ws event ≡ₚ
            (fun kw => (watcher.ch kw.2, event)) <$> map_to_list ws).
  { unfold watcher.Send. change map with (@fmap list _). by rewrite range_perm. }
  split; [exact Hperm|].
  intros c e. rewrite Hperm, list_elem_of_fmap. split.
  - intros ([k w] & [= -> ->] & Hin). split; [reflexivity|].
    exists w. split; [|reflexivity]. exists k. by apply elem_of_map_to_list.
  - intros (-> & w & [k Hk] & <-). exists (k, w). split; [reflexivity|].
    by apply elem_of_map_to_list.
Qed.

Lemma remove_loop_other (id0 : watcher.UUID)
      (l : list (watcher.UUID * watcher.Watcher)) (acc : watcher.Watchers) k :
  k ≠ id0 ->
  foldl (fun (watchers : watcher.Watchers) kw =>
           if decide (watcher.id kw.2 ≠ id0)
           then <[id0 := kw.2]> watchers
           else watchers) acc l !! k = acc !! k.
Proof.
  intros Hk. revert acc. induction l as [|kw l IH]; intros acc; cbn [foldl].
  - reflexivity.
  - rewrite IH. case_decide; [by rewrite lookup_insert_ne | reflexivity].
Qed.

Lemma remove_loop_id (id0 : watcher.UUID)
      (l : list (watcher.UUID * watcher.Watcher)) (acc : watcher.Watchers) :
  let r := foldl (fun (watchers : watcher.Watchers) kw =>
                    if decide (watcher.id kw.2 ≠ id0)
                    then <[id0 := kw.2]> watchers
                    else watchers) acc l in
  (r !! id0 = acc !! id0 /\ forall kw, kw ∈ l -> watcher.id kw.2 = id0)
  \/ (exists kw, kw ∈ l /\ watcher.id kw.2 ≠ id0 /\ r !! id0 = Some kw.2).
Proof.
  cbn zeta. revert acc. induction l as [|x l IH]; intros acc; cbn [foldl].
  - left. split; [reflexivity|]. intros kw Hkw. by apply elem_of_nil in Hkw.
  - destruct (IH (if decide (watcher.id x.2 ≠ id0)
                  then <[id0 := x.2]> acc else acc))
      as [[Heq Hall]|(kw & Hin & Hne & Hr)].
    + case_decide as Hx.
      * right. exists x. split; [left|]. split; [exact Hx|].
        by rewrite Heq, lookup_insert_eq.
      * left. split; [exact Heq|].
        intros kw [->|Hkw]%elem_of_cons; [|by apply Hall].
        by destruct (decide (watcher.id x.2 = id0)).
    + right. exists kw. split; [by right|]. split; assumption.
Qed.

(** After [RemoveWatcher id0] the map has no key but [id0], and under it
    the watcher the loop met last among those with another id. *)
Lemma RemoveWatcher_result (ws : watcher.Watchers) (id0 : watcher.UUID) :
  let r := (watcher.RemoveWatcher ws id0).1 in
  (forall k, k ≠ id0 -> r !! k = None) /\
  ((r !! id0 = None /\ forall w, watcher.registered ws w -> watcher.id w = id0)
   \/ (exists w, watcher.registered ws w /\ watcher.id w ≠ id0 /\
                 r !! id0 = Some w)).
Proof.
  cbn zeta. unfold watcher.RemoveWatcher. cbn [fst]. split.
  - intros k Hk. rewrite remove_loop_other by done. apply lookup_empty.
  - destruct (remove_loop_id id0 (range ws) ∅) as [[Heq Hall]|(kw & Hin & Hne & Hr)].
    + left. split; [by rewrite Heq, lookup_empty|].
      intros w [k Hk]. apply (Hall (k, w)). by apply elem_of_range.
    + right. exists kw.2. split; [|split; assumption].
      exists kw.1. apply elem_of_range. by destruct kw.
Qed.

Lemma RemoveWatcher_at_most_one (ws : watcher.Watchers) (id0 : watcher.UUID) w1 w2 :
  watcher.registered (watcher.RemoveWatcher ws id0).1 w1 ->
  watcher.registered (watcher.RemoveWatcher ws id0).1 w2 ->
  w1 = w2.
Proof.
  destruct (RemoveWatcher_result ws id0) as [Hother _].
  intros [k1 H1] [k2 H2].
  destruct (decide (k1 = id0)) as [->|Hn1]; [|by rewrite Hother in H1].
  destruct (decide (k2 = id0)) as [->|Hn2]; [|by rewrite Hother in H2].
  congruence.
Qed.

Lemma range_singleton `{Countable K} {V} (k : K) (v : V) :
  range ({[ k := v ]} : gmap K V) = [(k, v)].
Proof.
  apply Permutation_singleton_r. rewrite range_perm.
  by rewrite map_to_list_singleton.
Qed.

End WatcherProps.

(** ** The tick and the loop of [Run] *)

Section Loop.
Context {order : RangeOrder} {levels : QOffsetRange}.
Variable indefinite : Float64.float64 -> Z.
Variable Monitor : handler -> handler * option error.

Lemma bind_bind {A B C} (m : M A) (k : A -> M B) (k' : B -> M C) s :
  bind (bind m k) k' s = bind m (fun a => bind (k a) k') s.
Proof. unfold bind. destruct (m s) as [[a s1]|]; reflexivity. Qed.

Lemma bind_ext {A B} (m : M A) (k1 k2 : A -> M B) s :
  (forall a s1, k1 a s1 = k2 a s1) -> bind m k1 s = bind m k2 s.
Proof. intros Hk. unfold bind. destruct (m s) as [[a s1]|]; [apply Hk | reflexivity]. Qed.

(** C9: when [select] takes the timer case [n] times and then the
    [ctx.Done] case, [Run] performs exactly the [n] ticks and returns [nil],
    whatever could have been selected afterwards: no tick starts once the
    cancellation is observed; and as long as only the timer case is taken
    [Run] has not returned. *)
Theorem C9_run_returns_nil_on_cancel (n : nat) (rest : list selectCase) s :
  Run indefinite Monitor (repeat TimerFired n ++ CtxDone :: rest) s =
    (ticks indefinite Monitor n ;; ret (Some None)) s
  /\ Run indefinite Monitor (repeat TimerFired n) s =
    (ticks indefinite Monitor n ;; ret None) s.
Proof.
  revert s. induction n as [|n IH]; intros s; cbn [repeat app Run ticks].
  - split; reflexivity.
  - rewrite !bind_bind. split; apply bind_ext; intros _ s1; apply IH.
Qed.

(** *** What a whole tick can do

    [updateOcnStore] asserts that every value of the neighbor store is a
    [storage.Neighbors]; [controlLogicEachCell] asserts that the value it
    gets from the same store is a [[]storage.IDs].  A tick that does not
    panic therefore leaves the per-cell decision at the neighbor lookup. *)

Lemma reconcile_trace e s r s' :
  reconcile e s = Return (r, s') -> trace s' = trace s.
Proof.
  intros Hr. apply reconcile_spec in Hr as (_ & nl & m & _ & -> & _).
  reflexivity.
Qed.

Lemma forRange_reconcile_trace ch s r s' :
  forRange ch reconcile s = Return (r, s') -> trace s' = trace s.
Proof.
  revert s. induction ch as [|e ch IH]; intros s; cbn [forRange].
  - by intros [= _ <-].
  - unfold bind at 1.
    destruct (reconcile e s) as [[r1 s1]|] eqn:E1; [|discriminate].
    pose proof (reconcile_trace _ _ _ _ E1) as Ht.
    apply reconcile_spec in E1 as (-> & _). intros Hrest.
    rewrite (IH _ Hrest). exact Ht.
Qed.

Lemma updateOcnStore_typed s r s' :
  updateOcnStore s = Return (r, s') ->
  r = None /\ trace s' = trace s /\ neighborsTyped (hdl s').
Proof.
  unfold updateOcnStore, bind, this, ListElements. cbn. intros Hrun.
  pose proof (forRange_reconcile_trace _ _ _ _ Hrun) as Ht.
  apply forRange_reconcile in Hrun as (-> & Hnb & _ & Hin).
  - split; [reflexivity|]. split; [exact Ht|].
    intros cell v Hcell. rewrite Hnb in Hcell.
    destruct (Hin (mkEntry cell v)) as (nl & _ & Hv & _).
    { apply list_elem_of_fmap. exists (cell, v). split; [reflexivity|].
      by apply elem_of_range. }
    by exists nl.
  - rewrite <- list_fmap_compose.
    apply (NoDup_fst_range (neighborMeasStore (hdl s))).
Qed.

Lemma controlLogicEachCell_typed ids cells totalNumUEs s r s' :
  neighborsTyped (hdl s) ->
  controlLogicEachCell indefinite ids cells totalNumUEs s = Return (r, s') ->
  s' = s /\ exists err, r = Some err.
Proof.
  intros Hty. unfold controlLogicEachCell, bind at 1, this, Get. cbn.
  destruct (neighborMeasStore (hdl s) !! ids) as [v|] eqn:E.
  - destruct (Hty _ _ E) as [nl ->]. cbn. discriminate.
  - intros [= <- <-]. eauto.
Qed.

Lemma sumNumUEs_state ch result s r s' :
  sumNumUEs ch result s = Return (r, s') -> s' = s.
Proof.
  revert result. induction ch as [|e ch IH]; intros result; cbn [sumNumUEs].
  - by intros [= _ <-].
  - unfold bind. destruct (Val e); cbn; try discriminate. apply IH.
Qed.

Lemma getTotalNumUEs_state s r s' :
  getTotalNumUEs s = Return (r, s') -> s' = s.
Proof.
  unfold getTotalNumUEs, bind at 1 2, this, ListElements. cbn.
  destruct (sumNumUEs _ 0 s) as [[n s1]|] eqn:E; [|discriminate].
  apply sumNumUEs_state in E as ->. by intros [= _ <-].
Qed.

Lemma cells_loop_typed cells (all : list IDs) totalNumUEs s r s' :
  neighborsTyped (hdl s) ->
  forRange cells (fun cell =>
    err <- controlLogicEachCell indefinite cell all totalNumUEs ;;
    match err with
    | Some err => emit (LogError err) ;; ret (Some tt)
    | None => ret None
    end) s = Return (r, s') ->
  hdl s' = hdl s /\
  exists errs, trace s' = trace s ++ (LogError <$> errs).
Proof.
  intros Hty. destruct cells as [|cell cells]; cbn [forRange].
  - intros [= _ <-]. split; [reflexivity|]. exists []. cbn. by rewrite app_nil_r.
  - unfold bind at 1 2.
    destruct (controlLogicEachCell _ cell all totalNumUEs s) as [[r1 s1]|] eqn:E;
      [|discriminate].
    apply controlLogicEachCell_typed in E as (-> & err & ->); [|exact Hty].
    cbn. intros [= _ <-]. split; [reflexivity|]. by exists [err].
Qed.

(** A tick that returns has sent no control message and has not entered
    [getCapacity]: all it adds to the trace are logged errors. *)
Lemma tick_only_logs_errors s s' :
  StartControlLogic indefinite Monitor s = Return (tt, s') ->
  exists errs, trace s' = trace s ++ (LogError <$> errs).
Proof.
  unfold StartControlLogic, bind at 1, runMonitor.
  destruct (Monitor (hdl s)) as [h1 [err|]] eqn:Emon; cbn.
  { intros [= <-]. by exists [err]. }
  unfold bind at 1.
  destruct (updateOcnStore _) as [[r2 s2]|] eqn:Eupd; [|discriminate].
  apply updateOcnStore_typed in Eupd as (-> & Ht2 & Hty). cbn in Ht2.
  unfold bind at 1.
  destruct (getTotalNumUEs s2) as [[[total err3] s3]|] eqn:Etot; [|discriminate].
  apply getTotalNumUEs_state in Etot as ->.
  destruct err3 as [err|].
  { intros [= <-]. exists [err]. cbn. by rewrite Ht2. }
  unfold bind at 1, getCellList, bind at 1, this, ListKeys. cbn.
  unfold bind at 1.
  match goal with
  | |- context [forRange ?cs ?body s2] =>
      destruct (forRange cs body s2) as [[r5 s5]|] eqn:Eloop; [|discriminate]
  end.
  apply cells_loop_typed in Eloop as (_ & errs & Ht5); [|exact Hty].
  intros [= <-]. exists errs. by rewrite Ht5, Ht2.
Qed.

End Loop.

(** ** The properties on concrete states *)

Section Scenarios.
#[local] Existing Instance canonical_order.
#[local] Existing Instance dB_levels.

(** C1: the offload rule fires exactly when the load [100 - capacity] of
    the serving cell is below [targetThreshold].  The code compares
    [1 - capacity] instead: with 100 of 200 UEs on [cellA] (capacity 50,
    load 50) and [targetThreshold = 40] the load is not below the
    threshold, yet the rule fires and the reduced offset is sent for the
    neighbor. *)
Theorem C1_offload_fires_at_half_load (indefinite : Float64.float64 -> Z) :
  let s := twoCells 100 100 60 40 in
  getTotalNumUEs s = Return ((200, None), s)
  /\ getCapacity indefinite (Float64.of_int 1) 200 100 = 50
  /\ ~ (100 - 50 < targetThreshold (hdl s))
  /\ exists s',
       controlLogicEachCell indefinite cellA [cellA; cellB] 200 s =
         Return (None, s')
       /\ sent (trace s') = [(cellB, NodeID cellA, -3)].
Proof.
  cbn zeta. split; [vm_compute; reflexivity|].
  split; [vm_compute; reflexivity|].
  split; [cbn; lia|].
  eexists. split; [vm_compute; reflexivity|]. vm_compute. reflexivity.
Qed.

(** C2: an overload-relief decision sends the current OCN of the neighbor
    plus [offsetStep] when that does not exceed [maxOffset].  The code
    compares the stepped value with the lowest level instead of the highest:
    with [cellA] holding all 200 UEs ([overloadThreshold = 0]) and the
    neighbor [cellB] idle at offset 0, the stepped value 3 is within the
    bound 24, yet the value sent is 24. *)
Theorem C2_relief_sends_max_from_default (indefinite : Float64.float64 -> Z) :
  let s := twoCells 200 0 0 1 in
  0 + OCNDeltaFactor <= QOffset24dB
  /\ stepUp 0 = QOffset24dB
  /\ exists s',
       controlLogicEachCell indefinite cellA [cellA; cellB] 200 s =
         Return (None, s')
       /\ sent (trace s') = [(cellB, NodeID cellA, 24)].
Proof.
  cbn zeta. split; [vm_compute; discriminate|].
  split; [vm_compute; reflexivity|].
  eexists. split; [vm_compute; reflexivity|]. vm_compute. reflexivity.
Qed.

(** C3, as stated, fails: with 10 of 200 UEs on [cellA] the offload rule
    fires for the neighbor [cellB] and sends the stepped offset -3, but the
    entry of the OCN store for the pair is still 0 afterwards. *)
Lemma C3_counterexample :
  exists s',
    controlLogicEachCell amd64_indefinite cellA [cellA; cellB] 200
      (twoCells 10 190 60 40) = Return (None, s')
    /\ sent (trace s') = [(cellB, NodeID cellA, -3)]
    /\ storedOcnMap (ocnStore (hdl s')) cellA !! cellB = Some 0
    /\ storedOcnMap (ocnStore (hdl s')) cellA !! cellB ≠ Some (-3).
Proof.
  eexists. split; [vm_compute; reflexivity|].
  split; [vm_compute; reflexivity|].
  split; [vm_compute; reflexivity|]. vm_compute. discriminate.
Qed.

Lemma C3_witness :
  let s := twoCells 10 190 60 40 in
  let s' := {| hdl := hdl s;
               trace := [GetCapacityCall (Float64.of_int 1) 200 10;
                         SendControlMessage cellB (NodeID cellA) (-3)] |} in
  controlLogicEachCell amd64_indefinite cellA [cellA; cellB] 200 s =
    Return (None, s')
  /\ (hdl s' = hdl s /\
      exists t, trace s' = trace s ++ t /\
        controlLogicEachCell amd64_indefinite cellA [cellA; cellB] 200 s' =
          Return (None, {| hdl := hdl s; trace := trace s' ++ t |})).
Proof.
  cbn zeta. split; [vm_compute; reflexivity|].
  apply (C3_decision_leaves_stores_unchanged amd64_indefinite cellA
           [cellA; cellB] 200 (twoCells 10 190 60 40) None).
  vm_compute. reflexivity.
Defined.

Lemma C4_witness :
  let s' := {| hdl := with_ocnStore (hdl staleOcn)
                        {[ cellA := VOcnMap {[ cellB := 6; cellC := 0 ]} ]};
               trace := [] |} in
  updateOcnStore staleOcn = Return (None, s')
  /\ forall cell v, neighborMeasStore (hdl staleOcn) !! cell = Some v ->
       exists neighborList m,
         v = VNeighbors neighborList /\
         ocnStore (hdl s') !! cell = Some (VOcnMap m) /\
         dom m = list_to_set neighborList /\
         forall n, n ∈ neighborList ->
           m !! n = Some (default QOffset0dB
                            (storedOcnMap (ocnStore (hdl staleOcn)) cell !! n)).
Proof.
  cbn zeta. split; [vm_compute; reflexivity|].
  apply (C4_reconciliation_closure staleOcn).
  vm_compute. reflexivity.
Defined.

Lemma C6_witness :
  let s := strayNeighbor in
  numUE (PlmnID cellC) (CellID cellC) [cellA] s =
    Return ((0, Some (NotFound "ID not found with plmnid and cgi")), s)
  /\ (reliefNeighbor amd64_indefinite cellA [cellA] 200 cellC s =
        (emit (LogWarnf (PlmnID cellC) (CellID cellC)) ;;
         reliefDecision amd64_indefinite cellA 200 cellC 0) s
      /\ forall m, ocnStore (hdl s) !! cellA = Some (VOcnMap m) ->
           (exists s', reliefNeighbor amd64_indefinite cellA [cellA] 200 cellC s =
                       Return (None, s'))
           /\ (countsTyped (hdl s) ->
               forall neighborList,
                 exists s', forRange neighborList
                              (reliefNeighbor amd64_indefinite cellA [cellA] 200) s =
                            Return (None, s'))).
Proof.
  cbn zeta. split; [vm_compute; reflexivity|].
  apply (C6_missing_neighbor_counts_as_zero amd64_indefinite cellA [cellA] 200
           cellC strayNeighbor 0 (NotFound "ID not found with plmnid and cgi")
           strayNeighbor).
  vm_compute. reflexivity.
Defined.

Lemma C7_witness :
  let s := twoCells 10 190 60 40 in
  ocnStore (hdl s) !! cellA = Some (VOcnMap {[ cellB := 0 ]})
  /\ ({[ cellB := 0 ]} : gmap IDs Z) !! cellB = Some 0
  /\ GoInt.in_int32 0
  /\ GoInt.in_int32 QOffsetMinus24dB
  /\ exists v,
       offloadNeighbor cellA cellB s =
         Return (None, {| hdl := hdl s;
                          trace := trace s ++
                            [SendControlMessage cellB (NodeID cellA) v] |})
       /\ (QOffsetMinus24dB <= 0 - OCNDeltaFactor -> v = 0 - OCNDeltaFactor)
       /\ (0 - OCNDeltaFactor < QOffsetMinus24dB -> v = QOffsetMinus24dB)
       /\ QOffsetMinus24dB <= v.
Proof.
  cbn zeta.
  assert (H1 : ocnStore (hdl (twoCells 10 190 60 40)) !! cellA =
               Some (VOcnMap {[ cellB := 0 ]})) by (vm_compute; reflexivity).
  assert (H2 : ({[ cellB := 0 ]} : gmap IDs Z) !! cellB = Some 0)
    by (vm_compute; reflexivity).
  assert (H3 : GoInt.in_int32 0) by (unfold GoInt.in_int32; lia).
  assert (H4 : GoInt.in_int32 QOffsetMinus24dB)
    by (unfold GoInt.in_int32; cbn; lia).
  split; [exact H1|]. split; [exact H2|]. split; [exact H3|].
  split; [exact H4|].
  exact (C7_offload_sends_clamped_step cellA cellB (twoCells 10 190 60 40)
           {[ cellB := 0 ]} 0 H1 H2 H3 H4).
Defined.



Lemma threeWatchers_registered w :
  watcher.registered threeWatchers w ->
  w = watcher1 \/ w = watcher2 \/ w = watcher3.
Proof.
  intros [k Hk]. unfold threeWatchers, watcher.AddWatcher, watcher.NewWatchers in Hk.
  cbn in Hk.
  repeat (apply lookup_insert_Some in Hk as [[_ <-]|[_ Hk]]; [tauto|]).
  by rewrite lookup_empty in Hk.
Qed.

End Scenarios.

(** C5: after [RemoveWatcher id] the other registered watchers are still
    registered and a later [Send] reaches all of them.  The code stores
    every watcher it keeps under the key [id]: whatever the order of the
    iteration, of the three watchers 1, 2 and 3 only one of 2 and 3 is left
    after [RemoveWatcher 1], stored under the key 1, and a later [Send]
    performs a single channel send. *)
Theorem C5_remove_drops_a_bystander (order : RangeOrder) :
  let ws := (watcher.RemoveWatcher threeWatchers 1%N).1 in
  (ws = {[ 1%N := watcher2 ]} \/ ws = {[ 1%N := watcher3 ]})
  /\ ~ (watcher.registered ws watcher2 /\ watcher.registered ws watcher3)
  /\ forall (Event : Type) (event : Event),
       watcher.Send ws event = [(102%N, event)] \/
       watcher.Send ws event = [(103%N, event)].
Proof.
  cbn zeta.
  destruct (RemoveWatcher_result threeWatchers 1%N) as [Hother Hid].
  assert (Hws : (watcher.RemoveWatcher threeWatchers 1%N).1 = {[ 1%N := watcher2 ]}
             \/ (watcher.RemoveWatcher threeWatchers 1%N).1 = {[ 1%N := watcher3 ]}).
  { destruct Hid as [[_ Hall]|(w & Hreg & Hne & Hr)].
    - specialize (Hall watcher2). discriminate Hall. by exists 2%N.
    - apply threeWatchers_registered in Hreg as [->|[->| ->]].
      + by destruct Hne.
      + left. apply map_eq. intros k. destruct (decide (k = 1%N)) as [->|Hk].
        * by rewrite Hr, lookup_singleton_eq.
        * by rewrite Hother, lookup_singleton_ne.
      + right. apply map_eq. intros k. destruct (decide (k = 1%N)) as [->|Hk].
        * by rewrite Hr, lookup_singleton_eq.
        * by rewrite Hother, lookup_singleton_ne. }
  split; [exact Hws|]. split.
  - intros [H2 H3].
    pose proof (RemoveWatcher_at_most_one _ _ _ _ H2 H3) as Heq.
    discriminate Heq.
  - intros Event event. unfold watcher.Send.
    destruct Hws as [-> | ->]; rewrite range_singleton; [left | right]; reflexivity.
Qed.

(** * Further properties of the handler and the registry *)

(** ** Lookups *)

Section Lookups.
Context {order : RangeOrder}.

(** X1: [containsIDs] answers [true] exactly for the members of the list. *)
Theorem containsIDs_spec (ids : IDs) (idsList : list IDs) :
  containsIDs ids idsList = true <-> ids ∈ idsList.
Proof. apply containsIDs_elem_of. Qed.

Lemma findIDWithCGI_cases plmnid cid cells :
  match findIDWithCGI plmnid cid cells with
  | (cell, None) =>
      PlmnID cell = plmnid /\ CellID cell = cid /\
      exists before after,
        cells = before ++ cell :: after /\
        forall c, c ∈ before -> ~ (PlmnID c = plmnid /\ CellID c = cid)
  | (cell, Some err) =>
      cell = mkIDs "" "" "" /\
      err = NotFound "ID not found with plmnid and cgi" /\
      forall c, c ∈ cells -> ~ (PlmnID c = plmnid /\ CellID c = cid)
  end.
Proof.
  induction cells as [|c0 cells IH]; cbn [findIDWithCGI].
  - repeat split. intros c Hc. by apply elem_of_nil in Hc.
  - case_decide as Hm.
    + destruct Hm as [Hp Hc]. repeat split; try assumption.
      exists [], cells. split; [reflexivity|].
      intros c Hin. by apply elem_of_nil in Hin.
    + destruct (findIDWithCGI plmnid cid cells) as [cell [err|]].
      * destruct IH as (-> & -> & Hnone). repeat split.
        intros c [->|Hin]%elem_of_cons; [exact Hm | by apply Hnone].
      * destruct IH as (Hp & Hc & before & after & -> & Hbefore).
        repeat split; try assumption.
        exists (c0 :: before), after. split; [reflexivity|].
        intros c [->|Hin]%elem_of_cons; [exact Hm | by apply Hbefore].
Qed.

(** X2: [findIDWithCGI] returns the first cell of the list whose PLMN id and
    cell id are the given ones, whatever its node id; when there is none it
    returns the zero [IDs] and the [NotFound] error. *)
Theorem findIDWithCGI_first_match plmnid cid cells :
  match findIDWithCGI plmnid cid cells with
  | (cell, None) =>
      PlmnID cell = plmnid /\ CellID cell = cid /\
      exists before after,
        cells = before ++ cell :: after /\
        forall c, c ∈ before -> ~ (PlmnID c = plmnid /\ CellID c = cid)
  | (cell, Some err) =>
      cell = mkIDs "" "" "" /\
      err = NotFound "ID not found with plmnid and cgi" /\
      forall c, c ∈ cells -> ~ (PlmnID c = plmnid /\ CellID c = cid)
  end.
Proof. apply findIDWithCGI_cases. Qed.

Lemma findIDWithCGI_member cell cells :
  cell ∈ cells ->
  (forall c, c ∈ cells -> PlmnID c = PlmnID cell -> CellID c = CellID cell ->
             c = cell) ->
  findIDWithCGI (PlmnID cell) (CellID cell) cells = (cell, None).
Proof.
  intros Hin Huniq.
  pose proof (findIDWithCGI_cases (PlmnID cell) (CellID cell) cells) as H.
  destruct (findIDWithCGI _ _ cells) as [c [err|]].
  - destruct H as (_ & _ & Hnone). exfalso. by apply (Hnone cell Hin).
  - destruct H as (Hp & Hc & before & after & -> & _).
    rewrite (Huniq c); [reflexivity | | assumption | assumption].
    apply elem_of_app. right. left.
Qed.

(** X3: for a listed cell that is the only one of the list with its PLMN id
    and cell id, [numUE] returns the stored count and no error, and changes
    nothing. *)
Theorem numUE_of_listed_cell cell cells s n :
  cell ∈ cells ->
  (forall c, c ∈ cells -> PlmnID c = PlmnID cell -> CellID c = CellID cell ->
             c = cell) ->
  numUEsMeasStore (hdl s) !! cell = Some (VInt n) ->
  numUE (PlmnID cell) (CellID cell) cells s = Return ((n, None), s).
Proof.
  intros Hin Huniq Hn. unfold numUE.
  rewrite (findIDWithCGI_member cell cells Hin Huniq).
  unfold bind, this, Get. cbn. rewrite Hn. reflexivity.
Qed.

(** X4: [numUE] does not look at the node id: when a cell with the same
    PLMN id and cell id is listed first, it is the count stored for that
    cell that is returned, whatever is stored for the cell asked for. *)
Theorem numUE_reads_first_listed other cell rest s n :
  PlmnID other = PlmnID cell -> CellID other = CellID cell ->
  numUEsMeasStore (hdl s) !! other = Some (VInt n) ->
  numUE (PlmnID cell) (CellID cell) (other :: rest) s = Return ((n, None), s).
Proof.
  intros Hp Hc Hn. unfold numUE. cbn [findIDWithCGI].
  rewrite decide_True by done.
  unfold bind, this, Get. cbn. rewrite Hn. reflexivity.
Qed.

(** X5: [getCellList] returns, without error and without changing anything,
    the keys of the UE-count store, each of them once. *)
Theorem getCellList_keys s :
  exists cells,
    getCellList s = Return ((cells, None), s) /\
    NoDup cells /\
    forall cell, cell ∈ cells <-> is_Some (numUEsMeasStore (hdl s) !! cell).
Proof.
  exists ((range (numUEsMeasStore (hdl s))).*1).
  split; [reflexivity|]. split; [apply NoDup_fst_range|].
  intros cell. rewrite list_elem_of_fmap. split.
  - intros ([k v] & -> & Hin). apply elem_of_range in Hin. by exists v.
  - intros [v Hv]. exists (cell, v). split; [reflexivity|].
    by apply elem_of_range.
Qed.

End Lookups.

(** ** The total of the UE counts *)

Section Totals.
Context {order : RangeOrder}.

Lemma int_add_int a b : GoInt.int (GoInt.int a + b) = GoInt.int (a + b).
Proof.
  unfold GoInt.int, GoInt.wrap.
  replace ((a + 2 ^ (64 - 1)) mod 2 ^ 64 - 2 ^ (64 - 1) + b + 2 ^ (64 - 1))
    with ((a + 2 ^ (64 - 1)) mod 2 ^ 64 + b) by lia.
  rewrite Zplus_mod_idemp_l. f_equal. f_equal. lia.
Qed.

Lemma sumNumUEs_sum ch acc s :
  (forall e, e ∈ ch -> exists n, Val e = VInt n) ->
  sumNumUEs ch (GoInt.int acc) s = Return (GoInt.int (acc + sumEntries ch), s).
Proof.
  revert acc. induction ch as [|e ch IH]; intros acc Hty; cbn [sumNumUEs sumEntries foldr].
  - by rewrite Z.add_0_r.
  - destruct (Hty e) as [n Hn]; [left|]. unfold bind. rewrite Hn. cbn [assert_int storedCount].
    unfold ret. unfold GoInt.add. rewrite int_add_int.
    rewrite IH by (intros e' He'; apply Hty; by right).
    do 3 f_equal. fold (sumEntries ch). lia.
Qed.

Lemma sumCounts_perm (l1 l2 : list (IDs * Value)) :
  l1 ≡ₚ l2 ->
  foldr (fun kv acc => storedCount kv.2 + acc) 0 l1 =
  foldr (fun kv acc => storedCount kv.2 + acc) 0 l2.
Proof.
  induction 1 as [|x l1 l2 _ IH|x y l|l1 l2 l3 _ IH1 _ IH2]; cbn [foldr].
  - reflexivity.
  - by rewrite IH.
  - lia.
  - by rewrite IH1.
Qed.

Lemma sumEntries_range (m : Store) :
  sumEntries (map (fun kv => mkEntry kv.1 kv.2) (range m)) = sumCounts m.
Proof.
  unfold sumCounts. rewrite <- (sumCounts_perm _ _ (range_perm m)).
  induction (range m) as [|kv l IH]; cbn [map sumEntries foldr]; [reflexivity|].
  cbn. f_equal. exact IH.
Qed.

Lemma getTotalNumUEs_typed_sum s :
  countsTyped (hdl s) ->
  getTotalNumUEs s =
    Return ((GoInt.int (sumCounts (numUEsMeasStore (hdl s))), None), s).
Proof.
  intros Hty. unfold getTotalNumUEs, bind at 1 2, this, ListElements. cbn.
  change 0 with (GoInt.int 0) at 1.
  rewrite sumNumUEs_sum.
  - cbn. rewrite sumEntries_range. reflexivity.
  - intros e He. apply list_elem_of_fmap in He as ([k v] & -> & Hkv).
    apply elem_of_range in Hkv. cbn. eapply Hty, Hkv.
Qed.

(** X6: when every stored UE count is an [int], [getTotalNumUEs] returns
    their sum, wrapped to 64 bits, and no error, in whatever order the store
    lists its entries; it changes nothing. *)
Theorem getTotalNumUEs_sum s :
  countsTyped (hdl s) ->
  getTotalNumUEs s =
    Return ((GoInt.int (sumCounts (numUEsMeasStore (hdl s))), None), s).
Proof. apply getTotalNumUEs_typed_sum. Qed.

Lemma sumNumUEs_typed ch acc s r s' :
  sumNumUEs ch acc s = Return (r, s') ->
  forall e, e ∈ ch -> exists n, Val e = VInt n.
Proof.
  revert acc. induction ch as [|e ch IH]; intros acc; cbn [sumNumUEs].
  - intros _ e He. by apply elem_of_nil in He.
  - unfold bind. destruct (Val e) as [n| | | |] eqn:Ev; cbn; try discriminate.
    intros Hrun e' [->|He']%elem_of_cons; [by exists n | eapply IH; eassumption].
Qed.

(** X7: [getTotalNumUEs] returns exactly when every stored UE count is an
    [int]; on any other stored value its type assertion panics. *)
Theorem getTotalNumUEs_returns_iff s :
  (exists r s', getTotalNumUEs s = Return (r, s'))
  <-> countsTyped (hdl s).
Proof.
  split.
  - intros (r & s' & Hrun). unfold getTotalNumUEs, bind at 1 2, this, ListElements in Hrun.
    cbn in Hrun.
    destruct (sumNumUEs _ 0 s) as [[n s1]|] eqn:E; [|discriminate].
    intros cell v Hv.
    destruct (sumNumUEs_typed _ _ _ _ _ E (mkEntry cell v)) as [k Hk].
    + apply list_elem_of_fmap. exists (cell, v). split; [reflexivity|].
      by apply elem_of_range.
    + by exists k.
  - intros Hty. do 2 eexists. by apply getTotalNumUEs_typed_sum.
Qed.

End Totals.

(** ** Reconciliation and the tick *)

Section MoreReconciliation.
Context {order : RangeOrder} {levels : QOffsetRange}.
Variable indefinite : Float64.float64 -> Z.
Variable Monitor : handler -> handler * option error.

Lemma with_ocnStore_twice h o1 o2 :
  with_ocnStore (with_ocnStore h o1) o2 = with_ocnStore h o2.
Proof. reflexivity. Qed.

Lemma with_ocnStore_same h : with_ocnStore h (ocnStore h) = h.
Proof. by destruct h. Qed.

Lemma forRange_reconcile_frame ch s r s' :
  forRange ch reconcile s = Return (r, s') ->
  s' = {| hdl := with_ocnStore (hdl s) (ocnStore (hdl s')); trace := trace s |}.
Proof.
  revert s. induction ch as [|e ch IH]; intros s; cbn [forRange].
  - intros [= _ <-]. rewrite with_ocnStore_same. by destruct s.
  - unfold bind at 1.
    destruct (reconcile e s) as [[r1 s1]|] eqn:E1; [|discriminate].
    apply reconcile_spec in E1 as (-> & nl & m & _ & -> & _).
    intros Hrest. apply IH in Hrest. cbn in Hrest. exact Hrest.
Qed.

Lemma updateOcnStore_untouched s r s' :
  updateOcnStore s = Return (r, s') ->
  r = None /\
  s' = {| hdl := with_ocnStore (hdl s) (ocnStore (hdl s')); trace := trace s |} /\
  forall cell, neighborMeasStore (hdl s) !! cell = None ->
    ocnStore (hdl s') !! cell = ocnStore (hdl s) !! cell.
Proof.
  unfold updateOcnStore, bind, this, ListElements. cbn. intros Hrun.
  pose proof (forRange_reconcile_frame _ _ _ _ Hrun) as Hframe.
  apply forRange_reconcile in Hrun as (-> & _ & Hother & _).
  - split; [reflexivity|]. split; [exact Hframe|].
    intros cell Hnone. apply Hother.
    rewrite <- list_fmap_compose. intros Hin.
    apply list_elem_of_fmap in Hin as ([k v] & -> & Hkv).
    apply elem_of_range in Hkv. cbn in Hnone. congruence.
  - rewrite <- list_fmap_compose.
    apply (NoDup_fst_range (neighborMeasStore (hdl s))).
Qed.

Lemma reconcile_returns e s nl :
  Val e = VNeighbors nl ->
  (forall v, ocnStore (hdl s) !! Key e = Some v -> exists m, v = VOcnMap m) ->
  exists s', reconcile e s = Return (None, s').
Proof.
  intros Hv Hty. unfold reconcile, bind at 1. rewrite Hv. cbn.
  unfold bind at 1, this, Get. cbn.
  destruct (ocnStore (hdl s) !! Key e) as [v|] eqn:Eo; cbn.
  - destruct (Hty v eq_refl) as [m ->]. cbn. by eexists.
  - by eexists.
Qed.

Lemma forRange_reconcile_returns ch :
  NoDup (Key <$> ch) ->
  forall s,
    (forall e, e ∈ ch -> exists nl, Val e = VNeighbors nl) ->
    (forall e v, e ∈ ch -> ocnStore (hdl s) !! Key e = Some v ->
                 exists m, v = VOcnMap m) ->
    exists s', forRange ch reconcile s = Return (None, s').
Proof.
  induction ch as [|e ch IH]; intros Hnd s Hnb Hocn; cbn [forRange].
  - by eexists.
  - rewrite fmap_cons in Hnd. apply NoDup_cons in Hnd as [Hfresh Hnd].
    destruct (Hnb e) as [nl Hv]; [left|].
    destruct (reconcile_returns e s nl Hv) as [s1 H1].
    { intros v. apply Hocn. left. }
    unfold bind. rewrite H1.
    apply reconcile_spec in H1 as (_ & nl' & m & _ & -> & _).
    apply IH; [exact Hnd | |].
    + intros e' He'. apply Hnb. by right.
    + intros e' v He'. cbn.
      assert (Key e' ≠ Key e) as Hne.
      { intros Heq. apply Hfresh. rewrite <- Heq.
        apply list_elem_of_fmap. by exists e'. }
      rewrite lookup_insert_ne by done. apply Hocn. by right.
Qed.

Lemma updateOcnStore_total s :
  neighborsTyped (hdl s) ->
  (forall cell v, is_Some (neighborMeasStore (hdl s) !! cell) ->
     ocnStore (hdl s) !! cell = Some v -> exists m, v = VOcnMap m) ->
  exists s', updateOcnStore s = Return (None, s').
Proof.
  intros Hnb Hocn. unfold updateOcnStore, bind, this, ListElements. cbn.
  apply forRange_reconcile_returns.
  - rewrite <- list_fmap_compose.
    apply (NoDup_fst_range (neighborMeasStore (hdl s))).
  - intros e He. apply list_elem_of_fmap in He as ([k v] & -> & Hkv).
    apply elem_of_range in Hkv. cbn. eapply Hnb, Hkv.
  - intros e v He. apply list_elem_of_fmap in He as ([k v'] & -> & Hkv).
    apply elem_of_range in Hkv. cbn. apply Hocn. by exists v'.
Qed.


(** X9: [updateOcnStore] returns, without error or panic, when every value
    of the neighbor store is a [storage.Neighbors] and every cell of the
    neighbor store has either nothing or a [storage.OcnMap] in the OCN
    store. *)
Theorem updateOcnStore_returns s :
  neighborsTyped (hdl s) ->
  (forall cell v, is_Some (neighborMeasStore (hdl s) !! cell) ->
     ocnStore (hdl s) !! cell = Some v -> exists m, v = VOcnMap m) ->
  exists s', updateOcnStore s = Return (None, s').
Proof. apply updateOcnStore_total. Qed.

Lemma reconciled_again nl (old m m' : gmap IDs Z) :
  reconciled nl old m -> reconciled nl m m' -> m' = m.
Proof.
  intros Hm Hm'. apply map_eq. intros n. rewrite (Hm' n), (Hm n).
  by case_decide.
Qed.

(** X10: reconciliation is idempotent: run again on the state it has
    produced, [updateOcnStore] returns without error and leaves that state
    as it is. *)
Theorem updateOcnStore_idempotent s r s' :
  updateOcnStore s = Return (r, s') ->
  updateOcnStore s' = Return (None, s').
Proof.
  intros Hrun.
  pose proof (updateOcnStore_typed _ _ _ Hrun) as (-> & _ & Hty).
  assert (Hfirst : forall cell v, neighborMeasStore (hdl s') !! cell = Some v ->
            exists nl m, v = VNeighbors nl /\
              ocnStore (hdl s') !! cell = Some (VOcnMap m) /\
              reconciled nl (storedOcnMap (ocnStore (hdl s)) cell) m).
  { revert Hrun. unfold updateOcnStore, bind, this, ListElements. cbn.
    intros Hrun cell v Hcell.
    apply forRange_reconcile in Hrun as (_ & Hnb & _ & Hin).
    - rewrite Hnb in Hcell.
      destruct (Hin (mkEntry cell v)) as (nl & m & Hv & Hs & Hm).
      { apply list_elem_of_fmap. exists (cell, v). split; [reflexivity|].
        by apply elem_of_range. }
      by exists nl, m.
    - rewrite <- list_fmap_compose.
      apply (NoDup_fst_range (neighborMeasStore (hdl s))). }
  destruct (updateOcnStore_total s' Hty) as [s'' Hagain].
  { intros cell v [v0 Hv0] Hv.
    destruct (Hfirst cell v0 Hv0) as (nl & m & _ & Hs & _).
    exists m. congruence. }
  rewrite Hagain. do 2 f_equal.
  pose proof (updateOcnStore_untouched _ _ _ Hagain) as (_ & Hframe & Hother).
  revert Hagain. unfold updateOcnStore, bind, this, ListElements. cbn.
  intros Hagain.
  apply forRange_reconcile in Hagain as (_ & _ & _ & Hin).
  2:{ rewrite <- list_fmap_compose.
      apply (NoDup_fst_range (neighborMeasStore (hdl s'))). }
  assert (Heq : ocnStore (hdl s'') = ocnStore (hdl s')).
  { apply map_eq. intros cell.
    destruct (neighborMeasStore (hdl s') !! cell) as [v|] eqn:Ecell.
    - destruct (Hfirst cell v Ecell) as (nl & m & Hv & Hs & Hm).
      destruct (Hin (mkEntry cell v)) as (nl' & m' & Hv' & Hs' & Hm').
      { apply list_elem_of_fmap. exists (cell, v). split; [reflexivity|].
        by apply elem_of_range. }
      cbn in *. rewrite Hv in Hv'. injection Hv' as <-.
      unfold storedOcnMap in Hm' at 1. rewrite Hs in Hm'.
      rewrite Hs', Hs. do 2 f_equal. eapply reconciled_again; eassumption.
    - by apply Hother. }
  rewrite Hframe, Heq, with_ocnStore_same. by destruct s'.
Qed.




Lemma cells_loop_aborts cells (all : list IDs) totalNumUEs s r s' :
  neighborsTyped (hdl s) ->
  forRange cells (fun cell =>
    err <- controlLogicEachCell indefinite cell all totalNumUEs ;;
    match err with
    | Some err => emit (LogError err) ;; ret (Some tt)
    | None => ret None
    end) s = Return (r, s') ->
  hdl s' = hdl s /\
  exists errs, (length errs <= 1)%nat /\ trace s' = trace s ++ (LogError <$> errs).
Proof.
  intros Hty. destruct cells as [|cell cells]; cbn [forRange].
  - intros [= _ <-]. split; [reflexivity|]. exists []. cbn.
    split; [lia | by rewrite app_nil_r].
  - unfold bind at 1 2.
    destruct (controlLogicEachCell _ cell all totalNumUEs s) as [[r1 s1]|] eqn:E;
      [|discriminate].
    apply controlLogicEachCell_typed in E as (-> & err & ->); [|exact Hty].
    cbn. intros [= _ <-]. split; [reflexivity|]. exists [err]. cbn. split; [lia | reflexivity].
Qed.

(** X11: a tick that returns has taken no decision: it has added at most
    one logged error to the trace, so no control message was sent, and the
    measurement stores are those the monitor left. *)
Theorem tick_returns_without_decision s s' :
  StartControlLogic indefinite Monitor s = Return (tt, s') ->
  exists errs,
    (length errs <= 1)%nat /\
    trace s' = trace s ++ (LogError <$> errs) /\
    numUEsMeasStore (hdl s') = numUEsMeasStore (Monitor (hdl s)).1 /\
    neighborMeasStore (hdl s') = neighborMeasStore (Monitor (hdl s)).1.
Proof.
  unfold StartControlLogic, bind at 1, runMonitor.
  destruct (Monitor (hdl s)) as [h1 [err|]] eqn:Emon; cbn.
  { intros [= <-]. exists [err]. cbn. repeat split; lia. }
  unfold bind at 1.
  destruct (updateOcnStore _) as [[r2 s2]|] eqn:Eupd; [|discriminate].
  pose proof (updateOcnStore_typed _ _ _ Eupd) as (-> & Ht2 & Hty).
  apply updateOcnStore_untouched in Eupd as (_ & Hs2 & _). cbn in Ht2, Hs2.
  unfold bind at 1.
  destruct (getTotalNumUEs s2) as [[[total err3] s3]|] eqn:Etot; [|discriminate].
  apply getTotalNumUEs_state in Etot as ->.
  destruct err3 as [err|].
  { intros [= <-]. exists [err]. cbn. rewrite Ht2, Hs2. repeat split; lia. }
  unfold bind at 1, getCellList, bind at 1, this, ListKeys. cbn.
  unfold bind at 1.
  match goal with
  | |- context [forRange ?cs ?body s2] =>
      destruct (forRange cs body s2) as [[r5 s5]|] eqn:Eloop; [|discriminate]
  end.
  apply cells_loop_aborts in Eloop as (Hh & errs & Hlen & Ht5); [|exact Hty].
  intros [= <-]. exists errs. rewrite Hh, Ht5, Ht2, Hs2. repeat split; assumption.
Qed.

(** X12: when the monitor succeeds and leaves well-typed stores in which
    some cell is measured and every measured cell has a neighbor list, the
    tick panics: reconciliation has asserted the neighbor lists to be
    [storage.Neighbors], and the decision for the first cell asserts its
    list to be a [[]storage.IDs]. *)
Theorem tick_panics_on_measured_network s h1 :
  Monitor (hdl s) = (h1, None) ->
  neighborsTyped h1 -> ocnTyped h1 -> countsTyped h1 ->
  (exists cell, is_Some (numUEsMeasStore h1 !! cell)) ->
  (forall cell, is_Some (numUEsMeasStore h1 !! cell) ->
                is_Some (neighborMeasStore h1 !! cell)) ->
  StartControlLogic indefinite Monitor s =
    Panic "interface conversion: interface {} is not []storage.IDs".
Proof.
  intros Hmon Hnb Hocn Hcnt [cell0 Hcell0] Hsub.
  unfold StartControlLogic, bind at 1, runMonitor. rewrite Hmon. cbn.
  destruct (updateOcnStore_total {| hdl := h1; trace := trace s |} Hnb)
    as [s2 Hupd].
  { intros cell v _ Hv. eapply Hocn, Hv. }
  unfold bind at 1. rewrite Hupd.
  pose proof (updateOcnStore_typed _ _ _ Hupd) as (_ & _ & Hty2).
  apply updateOcnStore_untouched in Hupd as (_ & Hs2 & _). cbn in Hs2.
  assert (Hcnt2 : countsTyped (hdl s2)) by (rewrite Hs2; exact Hcnt).
  unfold bind at 1. rewrite (getTotalNumUEs_typed_sum s2 Hcnt2).
  unfold bind at 1, getCellList, bind at 1, this, ListKeys. cbn.
  unfold bind at 1.
  destruct (range (numUEsMeasStore (hdl s2))) as [|[c v] l] eqn:Erange.
  { exfalso. destruct Hcell0 as [v0 Hv0].
    assert ((cell0, v0) ∈ range (numUEsMeasStore (hdl s2))) as Hin.
    { apply elem_of_range. by rewrite Hs2. }
    rewrite Erange in Hin. by apply elem_of_nil in Hin. }
  cbn [fmap list_fmap map fst forRange].
  assert (Hc : is_Some (neighborMeasStore (hdl s2) !! c)).
  { rewrite Hs2. cbn. apply Hsub.
    assert ((c, v) ∈ range (numUEsMeasStore (hdl s2))) as Hin
      by (rewrite Erange; left).
    apply elem_of_range in Hin. rewrite Hs2 in Hin. by exists v. }
  destruct Hc as [vc Hvc]. destruct (Hty2 _ _ Hvc) as [nl ->].
  unfold bind at 1 2, controlLogicEachCell, bind at 1, this, Get. cbn.
  rewrite Hvc. reflexivity.
Qed.

End MoreReconciliation.

(** ** The rules *)

Section MoreRules.
Context {order : RangeOrder} {levels : QOffsetRange}.
Variable indefinite : Float64.float64 -> Z.

(** X13: with [minOffset <= maxOffset], the value of the overload-relief
    step never exceeds [maxOffset]: it is [maxOffset] as soon as the stepped
    value is above [minOffset], and the stepped value otherwise. *)
Theorem stepUp_bounds ocn :
  GoInt.in_int32 ocn -> QOffsetMinus24dB <= QOffset24dB ->
  stepUp ocn <= QOffset24dB
  /\ (QOffsetMinus24dB < ocn + OCNDeltaFactor -> stepUp ocn = QOffset24dB)
  /\ (ocn + OCNDeltaFactor <= QOffsetMinus24dB ->
      stepUp ocn = ocn + OCNDeltaFactor).
Proof.
  intros Ho Hle. unfold stepUp, GoInt.add, OCNDeltaFactor in *.
  rewrite int_small by (unfold GoInt.in_int32, GoInt.in_int in *; lia).
  destruct (Z.gtb_spec (ocn + 3) QOffsetMinus24dB); lia.
Qed.

Lemma offload_loop_trace ids neighborList s m :
  ocnStore (hdl s) !! ids = Some (VOcnMap m) ->
  forRange neighborList (offloadNeighbor ids) s =
    Return (None,
            {| hdl := hdl s;
               trace := trace s ++
                 map (fun nCellID =>
                        SendControlMessage nCellID (NodeID ids)
                          (GoInt.int32 (stepDown (default 0 (m !! nCellID)))))
                     neighborList |}).
Proof.
  revert s. induction neighborList as [|N l IH]; intros s Hm; cbn [forRange map].
  - unfold ret. rewrite app_nil_r. by destruct s.
  - unfold bind at 1, offloadNeighbor, bind at 1, this, Get. cbn. rewrite Hm. cbn.
    rewrite IH by exact Hm. cbn. by rewrite <- app_assoc.
Qed.

Lemma silent_ret {A} (a : A) : silent (ret a).
Proof. intros s r s' [= _ <-]. by split. Qed.




(** X14: with an OCN map stored for the serving cell, the loop of the
    offload rule returns no error and sends one control message per entry
    of the neighbor list, in the order of the list, each to the node of the
    serving cell with the stepped-down offset of that neighbor (a neighbor
    without an entry counts as level 0). *)
Theorem offload_loop_messages ids neighborList s m :
  ocnStore (hdl s) !! ids = Some (VOcnMap m) ->
  forRange neighborList (offloadNeighbor ids) s =
    Return (None,
            {| hdl := hdl s;
               trace := trace s ++
                 map (fun nCellID =>
                        SendControlMessage nCellID (NodeID ids)
                          (GoInt.int32 (stepDown (default 0 (m !! nCellID)))))
                     neighborList |}).
Proof. apply offload_loop_trace. Qed.





Lemma offload_loop_no_error ids l s r s' m :
  ocnStore (hdl s) !! ids = Some (VOcnMap m) ->
  forRange l (offloadNeighbor ids) s = Return (r, s') ->
  r = None /\ hdl s' = hdl s.
Proof.
  intros Hm. rewrite (offload_loop_trace ids l s m Hm).
  intros [= <- <-]. by split.
Qed.





End MoreRules.

(** ** The registry *)

Section MoreWatchers.
Context {order : RangeOrder}.

Lemma Send_perm {Event : Type} (ws : watcher.Watchers) (event : Event) :
  watcher.Send ws event ≡ₚ
    (fun kw => (watcher.ch kw.2, event)) <$> map_to_list ws.
Proof. unfold watcher.Send. change map with (@fmap list _). by rewrite range_perm. Qed.

(** X16: [AddWatcher] returns no error and stores the watcher under its
    id; a later [Send] reaches the new channel once and, besides, the
    watchers that were registered under other ids: a watcher that was
    registered under the same id is replaced. *)
Theorem AddWatcher_then_Send {Event : Type} (ws : watcher.Watchers)
        (id0 : watcher.UUID) (ch0 : watcher.Chan) (event : Event) :
  (watcher.AddWatcher ws id0 ch0).2 = None
  /\ (watcher.AddWatcher ws id0 ch0).1 !! id0 = Some (watcher.mkWatcher id0 ch0)
  /\ watcher.Send (watcher.AddWatcher ws id0 ch0).1 event ≡ₚ
       (ch0, event) :: watcher.Send (delete id0 ws) event.
Proof.
  unfold watcher.AddWatcher. cbn [fst snd].
  split; [reflexivity|]. split; [apply lookup_insert_eq|].
  rewrite !Send_perm. rewrite <- insert_delete_eq.
  rewrite map_to_list_insert by apply lookup_delete_eq.
  reflexivity.
Qed.

Lemma RemoveWatcher_cases (ws : watcher.Watchers) (id0 : watcher.UUID) :
  ((forall w, watcher.registered ws w -> watcher.id w = id0)
   /\ (watcher.RemoveWatcher ws id0).1 = ∅)
  \/ (exists w, watcher.registered ws w /\ watcher.id w ≠ id0 /\
                (watcher.RemoveWatcher ws id0).1 = {[ id0 := w ]}).
Proof.
  destruct (RemoveWatcher_result ws id0) as [Hother [[Hnone Hall]|(w & Hreg & Hne & Hr)]].
  - left. split; [exact Hall|]. apply map_eq. intros k. rewrite lookup_empty.
    destruct (decide (k = id0)) as [->|Hk]; [exact Hnone | by apply Hother].
  - right. exists w. split; [exact Hreg|]. split; [exact Hne|].
    apply map_eq. intros k. destruct (decide (k = id0)) as [->|Hk].
    + by rewrite Hr, lookup_singleton_eq.
    + by rewrite Hother, lookup_singleton_ne.
Qed.

Lemma range_empty `{Countable K} {V} : range (∅ : gmap K V) = [].
Proof.
  apply Permutation_nil_r. rewrite range_perm. by rewrite map_to_list_empty.
Qed.

(** X17: [RemoveWatcher id] returns no error and leaves at most one
    watcher, for every registry and every order of iteration: none when all
    registered watchers have the id [id], and otherwise a single one of
    those with another id, stored under the key [id]; a later [Send]
    performs no or one channel send accordingly. *)
Theorem RemoveWatcher_keeps_at_most_one {Event : Type}
        (ws : watcher.Watchers) (id0 : watcher.UUID) (event : Event) :
  (watcher.RemoveWatcher ws id0).2 = None
  /\ (((forall w, watcher.registered ws w -> watcher.id w = id0)
       /\ (watcher.RemoveWatcher ws id0).1 = ∅
       /\ watcher.Send (watcher.RemoveWatcher ws id0).1 event = [])
      \/ (exists w, watcher.registered ws w /\ watcher.id w ≠ id0
            /\ (watcher.RemoveWatcher ws id0).1 = {[ id0 := w ]}
            /\ watcher.Send (watcher.RemoveWatcher ws id0).1 event =
                 [(watcher.ch w, event)])).
Proof.
  split; [reflexivity|].
  destruct (RemoveWatcher_cases ws id0) as [[Hall Hr]|(w & Hreg & Hne & Hr)].
  - left. split; [exact Hall|]. split; [exact Hr|].
    rewrite Hr. unfold watcher.Send. by rewrite range_empty.
  - right. exists w. repeat split; try assumption.
    rewrite Hr. unfold watcher.Send. by rewrite range_singleton.
Qed.

(** X18: a second [RemoveWatcher id] changes nothing: the watcher the first
    one has left under the key [id] has another id and is kept. *)
Theorem RemoveWatcher_twice (ws : watcher.Watchers) (id0 : watcher.UUID) :
  watcher.RemoveWatcher (watcher.RemoveWatcher ws id0).1 id0 =
  watcher.RemoveWatcher ws id0.
Proof.
  destruct (RemoveWatcher_cases ws id0) as [[Hall Hr]|(w & Hreg & Hne & Hr)].
  - unfold watcher.RemoveWatcher at 1. rewrite Hr, range_empty. cbn.
    rewrite <- Hr. reflexivity.
  - unfold watcher.RemoveWatcher at 1. rewrite Hr, range_singleton. cbn.
    rewrite decide_True by exact Hne. rewrite insert_empty, <- Hr. reflexivity.
Qed.

End MoreWatchers.

(** ** The capacity *)

Section Capacity.
Variable indefinite : Float64.float64 -> Z.

Lemma capacityTable_lookup (bound : nat) (t n : nat) :
  capacityTable bound = true ->
  (1 <= t <= bound)%nat -> (n <= t)%nat ->
  capacityWithinOne (Z.of_nat t) (Z.of_nat n) = true.
Proof.
  unfold capacityTable. intros Htab Ht Hn.
  rewrite forallb_forall in Htab.
  specialize (Htab t). rewrite forallb_forall in Htab.
  apply Htab; apply in_seq; lia.
Qed.

Lemma capacityTable_128 : capacityTable 128 = true.
Proof. vm_compute. reflexivity. Qed.

(** X19: for a total of 1 to 128 UEs and a count between 0 and the total,
    [getCapacity(1, total, count)] is the exact percentage
    [100 * (total - count) / total], rounded down, or one below it (the
    float arithmetic can fall short of an integral percentage); it lies
    between 0 and 100, is 100 for no UE and 0 for all of them. *)
Theorem getCapacity_within_one (totalNumUEs numUEs : Z) :
  1 <= totalNumUEs <= 128 -> 0 <= numUEs <= totalNumUEs ->
  let c := getCapacity indefinite (Float64.of_int 1) totalNumUEs numUEs in
  let exact := 100 * (totalNumUEs - numUEs) / totalNumUEs in
  exact - 1 <= c <= exact /\ 0 <= c <= 100
  /\ (numUEs = 0 -> c = 100) /\ (numUEs = totalNumUEs -> c = 0).
Proof.
  intros Ht Hn. cbn zeta.
  pose proof (capacityTable_lookup 128 (Z.to_nat totalNumUEs) (Z.to_nat numUEs)
                capacityTable_128) as Hok.
  rewrite !Z2Nat.id in Hok by lia.
  specialize (Hok ltac:(lia) ltac:(lia)).
  unfold capacityWithinOne in Hok. unfold getCapacity, Float64.to_int.
  destruct (Float64.trunc _) as [c|]; [|discriminate].
  repeat (apply andb_prop in Hok as [Hok ?]).
  rewrite decide_True by lia.
  split; [lia|]. split; [lia|]. split.
  - intros ->. rewrite Z.eqb_refl in *. lia.
  - intros ->. rewrite Z.eqb_refl in *. lia.
Qed.

End Capacity.

(** ** The further properties on concrete states *)

Section FurtherScenarios.
#[local] Existing Instance canonical_order.
#[local] Existing Instance dB_levels.

Lemma twoCells_countsTyped a b o t : countsTyped (hdl (twoCells a b o t)).
Proof.
  intros cell v Hv. cbn in Hv.
  apply lookup_insert_Some in Hv as [[_ <-]|[_ Hv]]; [by eexists|].
  apply lookup_singleton_Some in Hv as [_ <-]. by eexists.
Qed.

Lemma meshOfTwo_neighborsTyped : neighborsTyped (hdl meshOfTwo).
Proof.
  intros cell v Hv. cbn in Hv.
  apply lookup_insert_Some in Hv as [[_ <-]|[_ Hv]]; [by eexists|].
  apply lookup_singleton_Some in Hv as [_ <-]. by eexists.
Qed.

Lemma meshOfTwo_countsTyped : countsTyped (hdl meshOfTwo).
Proof.
  intros cell v Hv. cbn in Hv.
  apply lookup_insert_Some in Hv as [[_ <-]|[_ Hv]]; [by eexists|].
  apply lookup_singleton_Some in Hv as [_ <-]. by eexists.
Qed.

Lemma meshOfTwo_ocnTyped : ocnTyped (hdl meshOfTwo).
Proof. intros cell v Hv. cbn in Hv. by rewrite lookup_empty in Hv. Qed.

Lemma meshOfTwo_measured_have_neighbors cell :
  is_Some (numUEsMeasStore (hdl meshOfTwo) !! cell) ->
  is_Some (neighborMeasStore (hdl meshOfTwo) !! cell).
Proof.
  intros [v Hv]. cbn in Hv.
  apply lookup_insert_Some in Hv as [[<- _]|[_ Hv]]; [by eexists|].
  apply lookup_singleton_Some in Hv as [<- _]. by eexists.
Qed.

Lemma numUE_of_listed_cell_witness :
  let s := twoCells 100 100 60 40 in
  cellA ∈ [cellA; cellB]
  /\ numUEsMeasStore (hdl s) !! cellA = Some (VInt 100)
  /\ numUE (PlmnID cellA) (CellID cellA) [cellA; cellB] s =
       Return ((100, None), s).
Proof.
  cbn zeta.
  assert (H1 : cellA ∈ [cellA; cellB]) by left.
  assert (H2 : forall c, c ∈ [cellA; cellB] -> PlmnID c = PlmnID cellA ->
                 CellID c = CellID cellA -> c = cellA).
  { intros c [->|Hc]%elem_of_cons _ Hcid; [reflexivity|].
    apply list_elem_of_singleton in Hc as ->. discriminate Hcid. }
  assert (H3 : numUEsMeasStore (hdl (twoCells 100 100 60 40)) !! cellA =
               Some (VInt 100)) by (vm_compute; reflexivity).
  split; [exact H1|]. split; [exact H3|].
  exact (numUE_of_listed_cell cellA [cellA; cellB] (twoCells 100 100 60 40)
           100 H1 H2 H3).
Defined.

Lemma numUE_reads_first_listed_witness :
  PlmnID cellA' = PlmnID cellA /\ CellID cellA' = CellID cellA
  /\ numUEsMeasStore (hdl twoNodes) !! cellA' = Some (VInt 7)
  /\ numUEsMeasStore (hdl twoNodes) !! cellA = Some (VInt 100)
  /\ numUE (PlmnID cellA) (CellID cellA) [cellA'; cellA] twoNodes =
       Return ((7, None), twoNodes).
Proof.
  assert (H3 : numUEsMeasStore (hdl twoNodes) !! cellA' = Some (VInt 7))
    by (vm_compute; reflexivity).
  split; [reflexivity|]. split; [reflexivity|]. split; [exact H3|].
  split; [vm_compute; reflexivity|].
  exact (numUE_reads_first_listed cellA' cellA [cellA] twoNodes 7
           eq_refl eq_refl H3).
Defined.

Lemma getTotalNumUEs_sum_witness :
  let s := twoCells 120 80 60 40 in
  countsTyped (hdl s)
  /\ sumCounts (numUEsMeasStore (hdl s)) = 200
  /\ getTotalNumUEs s =
       Return ((GoInt.int (sumCounts (numUEsMeasStore (hdl s))), None), s).
Proof.
  cbn zeta. split; [apply twoCells_countsTyped|].
  split; [vm_compute; reflexivity|].
  exact (getTotalNumUEs_sum (twoCells 120 80 60 40)
           (twoCells_countsTyped 120 80 60 40)).
Defined.


Lemma updateOcnStore_returns_witness :
  neighborsTyped (hdl meshOfTwo)
  /\ exists s', updateOcnStore meshOfTwo = Return (None, s').
Proof.
  split; [exact meshOfTwo_neighborsTyped|].
  apply (updateOcnStore_returns meshOfTwo meshOfTwo_neighborsTyped).
  intros cell v _ Hv. exact (meshOfTwo_ocnTyped cell v Hv).
Defined.

Lemma updateOcnStore_idempotent_witness :
  let s' := {| hdl := with_ocnStore (hdl staleOcn)
                        {[ cellA := VOcnMap {[ cellB := 6; cellC := 0 ]} ]};
               trace := [] |} in
  updateOcnStore staleOcn = Return (None, s')
  /\ updateOcnStore s' = Return (None, s').
Proof.
  cbn zeta. split; [vm_compute; reflexivity|].
  apply (updateOcnStore_idempotent staleOcn None).
  vm_compute. reflexivity.
Defined.

Lemma tick_returns_without_decision_witness :
  let s' := {| hdl := hdl loneCell;
               trace := [LogError (NotFound "the entry does not exist")] |} in
  StartControlLogic amd64_indefinite idle_monitor loneCell = Return (tt, s')
  /\ exists errs,
       (length errs <= 1)%nat /\
       trace s' = trace loneCell ++ (LogError <$> errs) /\
       numUEsMeasStore (hdl s') =
         numUEsMeasStore (idle_monitor (hdl loneCell)).1 /\
       neighborMeasStore (hdl s') =
         neighborMeasStore (idle_monitor (hdl loneCell)).1.
Proof.
  cbn zeta. split; [vm_compute; reflexivity|].
  apply (tick_returns_without_decision amd64_indefinite idle_monitor loneCell).
  vm_compute. reflexivity.
Defined.

Lemma tick_panics_on_measured_network_witness :
  idle_monitor (hdl meshOfTwo) = (hdl meshOfTwo, None)
  /\ neighborsTyped (hdl meshOfTwo) /\ ocnTyped (hdl meshOfTwo)
  /\ countsTyped (hdl meshOfTwo)
  /\ is_Some (numUEsMeasStore (hdl meshOfTwo) !! cellA)
  /\ StartControlLogic amd64_indefinite idle_monitor meshOfTwo =
       Panic "interface conversion: interface {} is not []storage.IDs".
Proof.
  assert (H5 : is_Some (numUEsMeasStore (hdl meshOfTwo) !! cellA))
    by (exists (VInt 120); vm_compute; reflexivity).
  split; [reflexivity|]. split; [exact meshOfTwo_neighborsTyped|].
  split; [exact meshOfTwo_ocnTyped|]. split; [exact meshOfTwo_countsTyped|].
  split; [exact H5|].
  exact (tick_panics_on_measured_network amd64_indefinite idle_monitor
           meshOfTwo (hdl meshOfTwo) eq_refl meshOfTwo_neighborsTyped
           meshOfTwo_ocnTyped meshOfTwo_countsTyped
           (ex_intro _ cellA H5) meshOfTwo_measured_have_neighbors).
Defined.

Lemma stepUp_bounds_witness :
  GoInt.in_int32 0 /\ QOffsetMinus24dB <= QOffset24dB
  /\ (stepUp 0 <= QOffset24dB
      /\ (QOffsetMinus24dB < 0 + OCNDeltaFactor -> stepUp 0 = QOffset24dB)
      /\ (0 + OCNDeltaFactor <= QOffsetMinus24dB ->
          stepUp 0 = 0 + OCNDeltaFactor)).
Proof.
  assert (H1 : GoInt.in_int32 0) by (unfold GoInt.in_int32; lia).
  assert (H2 : QOffsetMinus24dB <= QOffset24dB) by (cbn; lia).
  split; [exact H1|]. split; [exact H2|].
  exact (stepUp_bounds 0 H1 H2).
Defined.

Lemma offload_loop_messages_witness :
  let s := twoCells 10 190 60 40 in
  ocnStore (hdl s) !! cellA = Some (VOcnMap {[ cellB := 0 ]})
  /\ forRange [cellB; cellC] (offloadNeighbor cellA) s =
       Return (None,
               {| hdl := hdl s;
                  trace := [SendControlMessage cellB (NodeID cellA) (-3);
                            SendControlMessage cellC (NodeID cellA) (-3)] |}).
Proof.
  cbn zeta.
  assert (H1 : ocnStore (hdl (twoCells 10 190 60 40)) !! cellA =
               Some (VOcnMap {[ cellB := 0 ]})) by (vm_compute; reflexivity).
  split; [exact H1|].
  exact (offload_loop_messages cellA [cellB; cellC] (twoCells 10 190 60 40)
           {[ cellB := 0 ]} H1).
Defined.


Lemma getCapacity_within_one_witness :
  1 <= 5 <= 128 /\ 0 <= 4 <= 5
  /\ getCapacity amd64_indefinite (Float64.of_int 1) 5 4 = 19
  /\ (let c := getCapacity amd64_indefinite (Float64.of_int 1) 5 4 in
      let exact := 100 * (5 - 4) / 5 in
      exact - 1 <= c <= exact /\ 0 <= c <= 100
      /\ (4 = 0 -> c = 100) /\ (4 = 5 -> c = 0)).
Proof.
  assert (H1 : 1 <= 5 <= 128) by lia.
  assert (H2 : 0 <= 4 <= 5) by lia.
  split; [exact H1|]. split; [exact H2|].
  split; [vm_compute; reflexivity|].
  exact (getCapacity_within_one amd64_indefinite 5 4 H1 H2).
Defined.

End FurtherScenarios.
